(** * Verification of [is_valid_email] and of the program around it

    A shallow embedding of the validator of
    [How-to-validate-an-email-address-in-C.c], of the loop that reads lines
    until one is valid ([get_email_input]) and of [main], with the proofs of
    the properties the specification states about the validator and of
    properties the code of all three shows.

    The C function reads a NUL-terminated string through a pointer, keeps a
    few [int] variables and leaves through [return] from inside its loops.
    The embedding keeps those three aspects visible:
    - a candidate is the list of the characters that precede the
      terminator; the pointer is either null or points at such a string;
    - every array access goes through [load], which fails when the index
      lies outside the string and its terminator;
    - a length is a [size_t] until it is stored in an [int], which keeps its
      low 32 bits;
    - statements live in a small monad [res] with three outcomes: a fault,
      an early [return b], or falling through to the next statement. *)

From Stdlib Require Import ZArith List Ascii String Bool Lia Permutation.
Import ListNotations.
Local Open Scope char_scope.
Local Open Scope Z_scope.

(** ** Constants of the translation unit *)

Definition MAX_EMAIL_LENGTH : Z := 256.
Definition MIN_EMAIL_LENGTH : Z := 5.  (* Minimum realistic email: a@b.c *)

(** ** <ctype.h> in the "C" locale

    The program never calls [setlocale], so the classification functions
    are the ones of the "C" locale.  A [char] is one byte; the functions are
    taken on the byte value. *)

Module CType.

Definition code (c : ascii) : Z := Z.of_N (N_of_ascii c).

Definition in_range (lo hi : Z) (c : ascii) : bool :=
  (lo <=? code c) && (code c <=? hi).

(** space, and the five controls from [\t] to [\r] *)
Definition isspace (c : ascii) : bool :=
  (code c =? 32) || in_range 9 13 c.

Definition isdigit (c : ascii) : bool := in_range 48 57 c.
Definition isupper (c : ascii) : bool := in_range 65 90 c.
Definition islower (c : ascii) : bool := in_range 97 122 c.
Definition isalpha (c : ascii) : bool := isupper c || islower c.
Definition isalnum (c : ascii) : bool := isalpha c || isdigit c.

End CType.

(** ** Outcomes of a statement *)

Inductive res (A : Type) : Type :=
| Fault : res A                 (* access outside the object *)
| Return (b : bool) : res A     (* [return b;] *)
| Next (a : A) : res A.         (* control reaches the next statement *)

Arguments Fault {A}.
Arguments Return {A} b.
Arguments Next {A} a.

Definition bind {A B : Type} (m : res A) (k : A -> res B) : res B :=
  match m with
  | Fault => Fault
  | Return b => Return b
  | Next a => k a
  end.

Notation "x <- m ;; k" := (bind m (fun x => k))
  (at level 61, m at next level, right associativity).
Notation "' pat <- m ;; k" := (bind m (fun x => match x with pat => k end))
  (at level 61, pat pattern, m at next level, right associativity).
Notation "m ;; k" := (bind m (fun _ => k))
  (at level 61, right associativity).

(** What the caller of the function observes: a boolean, or nothing when the
    execution faulted. *)
Definition run (m : res Empty_set) : option bool :=
  match m with
  | Fault => None
  | Return b => Some b
  | Next e => match e with end
  end.

(** ** Strings and pointers into them *)

(** The characters of a C string, terminator excluded. *)
Definition cstring : Type := list ascii.

Definition NUL : ascii := "000".

(** [strlen]: the number of characters before the terminator, a [size_t]. *)
Definition strlen (s : cstring) : Z := Z.of_nat (List.length s).

(** The [int] of the program has 32 bits. *)
Definition INT_MAX : Z := 2147483647.

(** [int len = strlen(...)]: the conversion of a [size_t] to [int] keeps the
    low 32 bits, read as a signed number.  A length up to [INT_MAX] is kept;
    a longer one wraps around.  Past the length test [len] is at most 256,
    and the indices, positions and counters of the validator lie between -1
    and [len]: no other [int] operation overflows. *)
Definition int_of_size_t (n : Z) : Z :=
  (n + 2147483648) mod 4294967296 - 2147483648.

(** A pointer into the object that holds [obj] followed by its terminator. *)
Record ptr : Type := { obj : cstring; off : Z }.

(** [p + k]: defined up to one past the end of the object. *)
Definition ptr_add (p : ptr) (k : Z) : res ptr :=
  let o := off p + k in
  if (0 <=? o) && (o <=? strlen (obj p) + 1)
  then Next {| obj := obj p; off := o |}
  else Fault.

(** [s[i]] for an absolute index: the characters, then the terminator. *)
Definition load (s : cstring) (i : Z) : res ascii :=
  if i <? 0 then Fault
  else match nth_error (s ++ [NUL]) (Z.to_nat i) with
       | Some c => Next c
       | None => Fault
       end.

(** [p[i]] *)
Definition idx (p : ptr) (i : Z) : res ascii := load (obj p) (off p + i).

(** ** Expressions *)

(** [e == c] and [e != c] on characters *)
Definition eqc (e : res ascii) (c : ascii) : res bool :=
  x <- e ;; Next (Ascii.eqb x c).
Definition nec (e : res ascii) (c : ascii) : res bool :=
  x <- e ;; Next (negb (Ascii.eqb x c)).

(** [isspace(e)], [!isalnum(e)] *)
Definition isspace (e : res ascii) : res bool :=
  x <- e ;; Next (CType.isspace x).
Definition not_isalnum (e : res ascii) : res bool :=
  x <- e ;; Next (negb (CType.isalnum x)).

(** [a || b] and [a && b]: the right operand is evaluated only when the left
    one does not decide. *)
Definition lor (a b : res bool) : res bool :=
  x <- a ;; if x then Next true else b.
Definition land (a b : res bool) : res bool :=
  x <- a ;; if x then b else Next false.

Infix "|||" := lor (at level 50, left associativity).
Infix "&&&" := land (at level 40, left associativity).

(** ** Statements *)

(** [if (c) { return false; }] *)
Definition reject_if (c : res bool) : res unit :=
  x <- c ;; if x then Return false else Next tt.

(** [for (int i = lo; i < hi; i++) body], where [body] changes neither [i]
    nor [hi]: the body runs for [i = lo, lo+1, ..., hi-1] unless it returns.
    [st] holds the variables the body assigns. *)
Fixpoint for_loop {S : Type} (n : nat) (i : Z) (body : Z -> S -> res S)
  (st : S) : res S :=
  match n with
  | O => Next st
  | Datatypes.S n' => st' <- body i st ;; for_loop n' (i + 1) body st'
  end.

Definition for_range {S : Type} (lo hi : Z) (body : Z -> S -> res S)
  (st : S) : res S :=
  for_loop (Z.to_nat (hi - lo)) lo body st.

(** ** The validator *)

Definition is_valid_email_body (email : option cstring) : res Empty_set :=
  match email with
  | None =>
      (* Check for NULL pointer - safety first *)
      Return false
  | Some s =>
      let email := {| obj := s; off := 0 |} in
      let len := int_of_size_t (strlen s) in
      (* Check minimum and maximum length constraints *)
      reject_if (Next (len <? MIN_EMAIL_LENGTH) ||| Next (len >? MAX_EMAIL_LENGTH)) ;;
      (* Find the position of the '@' symbol *)
      '(at_pos, at_count) <-
        for_range 0 len
          (fun i '(at_pos, at_count) =>
             is_at <- eqc (idx email i) "@" ;;
             let '(at_pos, at_count) :=
               if is_at then (i, at_count + 1) else (at_pos, at_count) in
             (* Check for spaces (not allowed in email addresses) *)
             reject_if (isspace (idx email i)) ;;
             Next (at_pos, at_count))
          (-1, 0) ;;
      (* Must have exactly one '@' symbol *)
      reject_if (Next (negb (at_count =? 1))) ;;
      (* '@' cannot be at the beginning or end *)
      reject_if (Next (at_pos =? 0) ||| Next (at_pos =? len - 1)) ;;
      (* Local part cannot start/end with '.' *)
      reject_if (eqc (idx email 0) "." ||| eqc (idx email (at_pos - 1)) ".") ;;
      (* Check for consecutive dots in local part *)
      for_range 0 (at_pos - 1)
        (fun i _ =>
           reject_if (eqc (idx email i) "." &&& eqc (idx email (i + 1)) "."))
        tt ;;
      (* Validate the domain part (after '@') *)
      email_at <- ptr_add email at_pos ;;
      domain <- ptr_add email_at 1 ;;
      let domain_len := len - at_pos - 1 in
      (* Domain cannot start or end with '.' or '-' *)
      reject_if (eqc (idx domain 0) "." ||| eqc (idx domain 0) "-" |||
                 eqc (idx domain (domain_len - 1)) "." |||
                 eqc (idx domain (domain_len - 1)) "-") ;;
      (* Find the last dot in domain (for TLD validation) *)
      '(last_dot_pos, dot_count) <-
        for_range 0 domain_len
          (fun i '(last_dot_pos, dot_count) =>
             is_dot <- eqc (idx domain i) "." ;;
             Next (if is_dot then (i, dot_count + 1)
                   else (last_dot_pos, dot_count)))
          (-1, 0) ;;
      (* Domain must have at least one dot (for TLD) *)
      reject_if (Next (dot_count =? 0)) ;;
      (* TLD (Top Level Domain) must be at least 2 characters *)
      reject_if (Next (domain_len - last_dot_pos - 1 <? 2)) ;;
      (* Check for consecutive dots in domain *)
      for_range 0 (domain_len - 1)
        (fun i _ =>
           reject_if (eqc (idx domain i) "." &&& eqc (idx domain (i + 1)) "."))
        tt ;;
      (* Validate characters in local part *)
      for_range 0 at_pos
        (fun i _ =>
           reject_if (not_isalnum (idx email i) &&& nec (idx email i) "." &&&
                      nec (idx email i) "-" &&& nec (idx email i) "_" &&&
                      nec (idx email i) "+"))
        tt ;;
      (* Validate characters in domain part *)
      for_range 0 domain_len
        (fun i _ =>
           reject_if (not_isalnum (idx domain i) &&& nec (idx domain i) "." &&&
                      nec (idx domain i) "-"))
        tt ;;
      (* If we've made it through all checks, the email is valid *)
      Return true
  end.

Definition is_valid_email (email : option cstring) : option bool :=
  run (is_valid_email_body email).

(** A string literal as a candidate. *)
Definition str (s : string) : option cstring := Some (list_ascii_of_string s).

(** ** The console

    [get_email_input] and [main] talk to the standard streams.  The world
    they run in holds what is left of [stdin], a finite sequence of bytes,
    and what has been sent to [stdout]: the calls of [printf], each with its
    format and arguments, and the calls of [fflush], in order. *)

Definition newline : ascii := "010".

(** The ["\n"] of a C string literal. *)
Definition nl : string := String newline EmptyString.

Inductive arg : Type :=
| IntArg (z : Z)
| StrArg (s : cstring).

Inductive event : Type :=
| Printf (format : string) (args : list arg)
| Fflush.

Record world : Type := { stdin : list ascii; stdout : list event }.

Definition print (e : event) (w : world) : world :=
  {| stdin := stdin w; stdout := stdout w ++ [e] |}.

Definition printf (format : string) (args : list arg) (w : world) : world :=
  print (Printf format args) w.

(** What [fgets] takes from the stream when the array has room for [room]
    more characters: it stops after a newline, when the room is used up, or
    at the end of the input. *)
Fixpoint read_chunk (room : nat) (input : list ascii)
  : list ascii * list ascii :=
  match room, input with
  | Datatypes.S room', c :: rest =>
      if Ascii.eqb c newline then ([c], rest)
      else let '(chunk, rest') := read_chunk room' rest in
           (c :: chunk, rest')
  | _, _ => ([], input)
  end.

(** [fgets(array, n, stdin)]: the characters stored before the terminator and
    the world afterwards; nothing ([NULL]) at the end of the input. *)
Definition fgets (n : Z) (w : world) : option (list ascii * world) :=
  match stdin w with
  | [] => None
  | _ :: _ =>
      let '(chunk, rest) := read_chunk (Z.to_nat (n - 1)) (stdin w) in
      Some (chunk, {| stdin := rest; stdout := stdout w |})
  end.

(** [while ((c = getchar()) != '\n' && c != EOF);] *)
Fixpoint skip_line (input : list ascii) : list ascii :=
  match input with
  | [] => []
  | c :: rest => if Ascii.eqb c newline then rest else skip_line rest
  end.

(** The string an array holds: its bytes up to the first NUL. *)
Fixpoint c_string (bytes : list ascii) : cstring :=
  match bytes with
  | [] => []
  | c :: rest => if Ascii.eqb c NUL then [] else c :: c_string rest
  end.

(** [s[i] = '\0'] for [0 <= i <= strlen(s)]: the string ends at [i]. *)
Definition store_nul (s : cstring) (i : Z) : cstring := firstn (Z.to_nat i) s.

(** The array behind [email_buffer]: its size, and the string it holds once
    one has been written. *)
Record buffer : Type := { capacity : Z; content : option cstring }.

(** [strcpy(dst, src)] writes [strlen(src) + 1] bytes. *)
Definition strcpy (dst : buffer) (src : cstring) : option buffer :=
  if strlen src + 1 <=? capacity dst
  then Some {| capacity := capacity dst; content := Some src |}
  else None.

(** ** [get_email_input] *)

(** How one turn of the [while (true)] loop ends. *)
Inductive turn : Type :=
| Crash                                             (* a fault *)
| Again (w : world)                                 (* [continue] *)
| Leave (b : bool) (email_buffer : buffer) (w : world).   (* [return b] *)

Definition attempt (email_buffer : buffer) (buffer_size : Z) (w : world)
  : turn :=
  (* Prompt the user for email input *)
  let w := printf "Please enter your email address: " [] w in
  let w := print Fflush w in
  (* Read input from user *)
  match fgets (MAX_EMAIL_LENGTH + 2) w with
  | None =>
      Leave false email_buffer
        (printf ("Error: Failed to read input" ++ nl) [] w)
  | Some (chunk, w) =>
      let input_buffer := c_string chunk in
      (* Remove trailing newline character if present *)
      let input_len := int_of_size_t (strlen input_buffer) in
      match Next (input_len >? 0)
            &&& eqc (load input_buffer (input_len - 1)) newline with
      | Next strip =>
          let input_buffer :=
            if strip then store_nul input_buffer (input_len - 1)
            else input_buffer in
          let input_len := if strip then input_len - 1 else input_len in
          (* Check if input was too long *)
          if input_len >=? MAX_EMAIL_LENGTH then
            let w :=
              printf ("Error: Email address is too long (maximum %d characters)" ++ nl)
                [IntArg (MAX_EMAIL_LENGTH - 1)] w in
            (* Clear any remaining input from stdin buffer *)
            Again {| stdin := skip_line (stdin w); stdout := stdout w |}
          (* Check if user entered empty string *)
          else if input_len =? 0 then
            Again (printf ("Error: Please enter a non-empty email address" ++ nl) [] w)
          else
            (* Validate the email address *)
            match is_valid_email (Some input_buffer) with
            | None => Crash
            | Some true =>
                (* Check if the valid email fits in the provided buffer *)
                if input_len >=? buffer_size then
                  Leave false email_buffer
                    (printf ("Error: Email too long for provided buffer" ++ nl) [] w)
                else
                  (* Copy the valid email to the output buffer *)
                  match strcpy email_buffer input_buffer with
                  | Some {| capacity := size; content := Some stored |} =>
                      Leave true {| capacity := size; content := Some stored |}
                        (printf ("✓ Valid email address entered: %s" ++ nl)
                           [StrArg stored] w)
                  | _ => Crash
                  end
            | Some false =>
                let w := printf ("✗ Invalid email address. Please check the following:" ++ nl) [] w in
                let w := printf ("  - Must contain exactly one '@' symbol" ++ nl) [] w in
                let w := printf ("  - Must have text before and after '@'" ++ nl) [] w in
                let w := printf ("  - Domain must contain at least one '.' (dot)" ++ nl) [] w in
                let w := printf ("  - Must end with valid domain extension (at least 2 characters)" ++ nl) [] w in
                let w := printf ("  - No spaces allowed" ++ nl) [] w in
                let w := printf ("  - Cannot start or end with '.' or '-'" ++ nl) [] w in
                let w := printf ("  - Length must be between %d and %d characters" ++ nl ++ nl)
                           [IntArg MIN_EMAIL_LENGTH; IntArg (MAX_EMAIL_LENGTH - 1)] w in
                Again w
            end
      | _ => Crash
      end
  end.

(** How a call ends: with a fault, without an answer after [fuel] turns, or
    by returning. *)
Inductive outcome (A : Type) : Type :=
| Crashed
| Starved
| Returned (a : A) (w : world).

Arguments Crashed {A}.
Arguments Starved {A}.
Arguments Returned {A} a w.

(** [while (true) { ... }], for at most [fuel] turns. *)
Fixpoint input_loop (fuel : nat) (email_buffer : buffer) (buffer_size : Z)
  (w : world) : outcome (bool * buffer) :=
  match fuel with
  | O => Starved
  | Datatypes.S fuel' =>
      match attempt email_buffer buffer_size w with
      | Crash => Crashed
      | Again w' => input_loop fuel' email_buffer buffer_size w'
      | Leave b email_buffer' w' => Returned (b, email_buffer') w'
      end
  end.

(** Every turn that does not return takes at least one character from
    [stdin], so one turn more than there are characters is enough. *)
Definition get_email_input (email_buffer : option buffer) (buffer_size : Z)
  (w : world) : outcome (bool * option buffer) :=
  match email_buffer with
  | Some b =>
      (* Safety check for NULL pointer and valid buffer size *)
      if buffer_size <=? 0 then
        Returned (false, email_buffer)
          (printf ("Error: Invalid buffer parameters" ++ nl) [] w)
      else
        match input_loop (Datatypes.S (List.length (stdin w))) b buffer_size w with
        | Crashed => Crashed
        | Starved => Starved
        | Returned (r, b') w' => Returned (r, Some b') w'
        end
  | None =>
      Returned (false, None)
        (printf ("Error: Invalid buffer parameters" ++ nl) [] w)
  end.

(** ** [main] *)

(** [sizeof(user_email)] for [char user_email[MAX_EMAIL_LENGTH]] *)
Definition sizeof_user_email : Z := MAX_EMAIL_LENGTH.

Definition main (w : world) : outcome Z :=
  (* Buffer to store the validated email address *)
  let user_email := {| capacity := MAX_EMAIL_LENGTH; content := None |} in
  let w := printf ("=== Email Address Validation Program ===" ++ nl) [] w in
  let w := printf ("This program will validate your email address format." ++ nl ++ nl) [] w in
  (* Get and validate email input from user *)
  match get_email_input (Some user_email) sizeof_user_email w with
  | Crashed => Crashed
  | Starved => Starved
  | Returned (true, user_email) w =>
      match user_email with
      | Some {| content := Some s |} =>
          Returned 0
            (printf (nl ++ "Success! Your email '%s' has been validated and stored." ++ nl)
               [StrArg s] w)
      | _ => Crashed
      end
  | Returned (false, _) w =>
      Returned 1 (printf (nl ++ "Program terminated due to input error." ++ nl) [] w)
  end.

(** The world in which the program starts on the input [s]. *)
Definition console (s : string) : world :=
  {| stdin := list_ascii_of_string s; stdout := [] |}.

(** Lines typed one after the other, each closed by a newline. *)
Fixpoint typed (lines : list string) : string :=
  match lines with
  | [] => EmptyString
  | l :: ls => (l ++ nl ++ typed ls)%string
  end.

(** ** The checks of the specification

    The specification lists the conditions of the algorithm one by one and
    calls them independent conjuncts.  Each is written here as a total
    boolean function of the candidate alone, over the local-part and
    domain-part slices; none looks at a variable another one has set. *)

Definition is_char (c x : ascii) : bool := Ascii.eqb x c.

Fixpoint count_char (c : ascii) (l : list ascii) : Z :=
  match l with
  | [] => 0
  | x :: l' => (if is_char c x then 1 else 0) + count_char c l'
  end.

(** Two adjacent characters of [l] are both ['.']. *)
Fixpoint has_dotdot (l : list ascii) : bool :=
  match l with
  | x :: ((y :: _) as l') => (is_char "." x && is_char "." y) || has_dotdot l'
  | _ => false
  end.

Module Checks.

(** Local part: the substring before the separating ['@']. *)
Fixpoint local_part (s : cstring) : list ascii :=
  match s with
  | [] => []
  | x :: s' => if is_char "@" x then [] else x :: local_part s'
  end.

(** Domain part: the substring after the separating ['@']. *)
Fixpoint domain_part (s : cstring) : list ascii :=
  match s with
  | [] => []
  | x :: s' => if is_char "@" x then s' else domain_part s'
  end.

(** TLD: the substring of the domain part after its last ['.'] (all of it
    when it has none). *)
Fixpoint tld (d : list ascii) : list ascii :=
  match d with
  | [] => []
  | x :: d' =>
      if existsb (is_char ".") d' then tld d'
      else if is_char "." x then d' else x :: d'
  end.

(** The zero-based position of the separator. *)
Definition separator (s : cstring) : Z := strlen (local_part s).

Definition local_char (x : ascii) : bool :=
  CType.isalnum x || is_char "." x || is_char "-" x || is_char "_" x
  || is_char "+" x.

Definition domain_char (x : ascii) : bool :=
  CType.isalnum x || is_char "." x || is_char "-" x.

(** 2. Length bound, with both ends included: not shorter than the minimum,
    not longer than the maximum.  This is the test the code makes. *)
Definition length_bound (s : cstring) : bool :=
  (MIN_EMAIL_LENGTH <=? strlen s) && (strlen s <=? MAX_EMAIL_LENGTH).

(** 2. Length bound as step 2 of the algorithm words it: within
    [[MIN_LEN, MAX_LEN]], inclusive-exclusive. *)
Definition length_in_range (s : cstring) : bool :=
  (MIN_EMAIL_LENGTH <=? strlen s) && (strlen s <? MAX_EMAIL_LENGTH).

(** 3. No whitespace anywhere in the candidate. *)
Definition no_whitespace (s : cstring) : bool :=
  negb (existsb CType.isspace s).

(** 4. Exactly one separator. *)
Definition one_separator (s : cstring) : bool := count_char "@" s =? 1.

(** 5. Separator not at an edge. *)
Definition separator_not_at_edge (s : cstring) : bool :=
  negb ((separator s =? 0) || (separator s =? strlen s - 1)).

(** 6. Local-part edge dots. *)
Definition local_edge_dots (s : cstring) : bool :=
  negb (is_char "." (hd NUL (local_part s))
        || is_char "." (last (local_part s) NUL)).

(** 7. Local part: no consecutive dots. *)
Definition local_no_consecutive_dots (s : cstring) : bool :=
  negb (has_dotdot (local_part s)).

(** 8. Domain-part edge characters. *)
Definition domain_edge_chars (s : cstring) : bool :=
  let d := domain_part s in
  negb (is_char "." (hd NUL d) || is_char "-" (hd NUL d)
        || is_char "." (last d NUL) || is_char "-" (last d NUL)).

(** 9. Domain must contain a dot. *)
Definition domain_has_dot (s : cstring) : bool :=
  existsb (is_char ".") (domain_part s).

(** 10. Top-level-domain minimum length. *)
Definition tld_min_length (s : cstring) : bool :=
  2 <=? strlen (tld (domain_part s)).

(** 11. Domain part: no consecutive dots. *)
Definition domain_no_consecutive_dots (s : cstring) : bool :=
  negb (has_dotdot (domain_part s)).

(** 12. Local-part character class. *)
Definition local_char_class (s : cstring) : bool :=
  forallb local_char (local_part s).

(** 13. Domain-part character class. *)
Definition domain_char_class (s : cstring) : bool :=
  forallb domain_char (domain_part s).

(** The checks in the order of the algorithm. *)
Definition checks : list (cstring -> bool) :=
  [ length_bound; no_whitespace; one_separator; separator_not_at_edge;
    local_edge_dots; local_no_consecutive_dots; domain_edge_chars;
    domain_has_dot; tld_min_length; domain_no_consecutive_dots;
    local_char_class; domain_char_class ].

(** The checks of the algorithm as the specification words them, in its
    order: the length bound is the inclusive-exclusive one. *)
Definition spec_checks : list (cstring -> bool) :=
  [ length_in_range; no_whitespace; one_separator; separator_not_at_edge;
    local_edge_dots; local_no_consecutive_dots; domain_edge_chars;
    domain_has_dot; tld_min_length; domain_no_consecutive_dots;
    local_char_class; domain_char_class ].

(** Short-circuit conjunction of a sequence of checks. *)
Definition conj (ps : list (cstring -> bool)) (s : cstring) : bool :=
  forallb (fun p => p s) ps.

(** Every check but the top-level-domain minimum length. *)
Definition checks_but_tld : list (cstring -> bool) :=
  [ length_bound; no_whitespace; one_separator; separator_not_at_edge;
    local_edge_dots; local_no_consecutive_dots; domain_edge_chars;
    domain_has_dot; domain_no_consecutive_dots;
    local_char_class; domain_char_class ].

(** Every check but the domain-part character class. *)
Definition checks_but_domain_class : list (cstring -> bool) :=
  [ length_bound; no_whitespace; one_separator; separator_not_at_edge;
    local_edge_dots; local_no_consecutive_dots; domain_edge_chars;
    domain_has_dot; tld_min_length; domain_no_consecutive_dots;
    local_char_class ].

End Checks.

(** ** Names for what a turn works on and for what the program prints *)

(** The string left in [input_buffer] once a trailing newline is removed. *)
Definition strip_newline (s : cstring) : cstring :=
  match s with
  | [] => []
  | _ :: _ => if Ascii.eqb (last s NUL) newline then removelast s else s
  end.

Definition line_of (chunk : list ascii) : cstring :=
  strip_newline (c_string chunk).

Definition say (es : list event) (w : world) : world :=
  {| stdin := stdin w; stdout := stdout w ++ es |}.

Definition prompt : list event :=
  [Printf "Please enter your email address: " []; Fflush].

Definition read_failed : event :=
  Printf ("Error: Failed to read input" ++ nl) [].

Definition too_long : event :=
  Printf ("Error: Email address is too long (maximum %d characters)" ++ nl)
    [IntArg 255].

Definition empty_line : event :=
  Printf ("Error: Please enter a non-empty email address" ++ nl) [].

Definition too_long_for_buffer : event :=
  Printf ("Error: Email too long for provided buffer" ++ nl) [].

Definition accepted_line (s : cstring) : event :=
  Printf ("✓ Valid email address entered: %s" ++ nl) [StrArg s].

Definition hints : list event :=
  [ Printf ("✗ Invalid email address. Please check the following:" ++ nl) [];
    Printf ("  - Must contain exactly one '@' symbol" ++ nl) [];
    Printf ("  - Must have text before and after '@'" ++ nl) [];
    Printf ("  - Domain must contain at least one '.' (dot)" ++ nl) [];
    Printf ("  - Must end with valid domain extension (at least 2 characters)" ++ nl) [];
    Printf ("  - No spaces allowed" ++ nl) [];
    Printf ("  - Cannot start or end with '.' or '-'" ++ nl) [];
    Printf ("  - Length must be between %d and %d characters" ++ nl ++ nl)
      [IntArg 5; IntArg 255] ].

Definition banner : list event :=
  [ Printf ("=== Email Address Validation Program ===" ++ nl) [];
    Printf ("This program will validate your email address format." ++ nl ++ nl) [] ].

Definition success (s : cstring) : event :=
  Printf (nl ++ "Success! Your email '%s' has been validated and stored." ++ nl)
    [StrArg s].

Definition terminated : event :=
  Printf (nl ++ "Program terminated due to input error." ++ nl) [].

(** One turn, read off as a function of the line it works on. *)
Definition turn_of_line (email_buffer : buffer) (buffer_size : Z) (w : world)
  : turn :=
  match stdin w with
  | [] => Leave false email_buffer (say (prompt ++ [read_failed]) w)
  | _ :: _ =>
      let '(chunk, rest) := read_chunk 257 (stdin w) in
      let line := line_of chunk in
      let after es := {| stdin := rest; stdout := stdout w ++ prompt ++ es |} in
      if strlen line >=? MAX_EMAIL_LENGTH then
        Again {| stdin := skip_line rest;
                 stdout := stdout w ++ prompt ++ [too_long] |}
      else if strlen line =? 0 then Again (after [empty_line])
      else if Checks.conj Checks.checks line then
        if strlen line >=? buffer_size then
          Leave false email_buffer (after [too_long_for_buffer])
        else if strlen line + 1 <=? capacity email_buffer then
          Leave true {| capacity := capacity email_buffer;
                        content := Some line |}
            (after [accepted_line line])
        else Crash
      else Again (after hints)
  end.

(** ** Characters the validator cannot tell apart

    The validator looks at a character only through [isspace], [isalnum],
    the comparisons with ['@'], ['.'], ['-'], ['_'] and ['+'], and, in
    [strlen], the comparison with the terminator.  A substitution [f] keeps
    the class of every character when none of these tests can tell [f c]
    from [c]; in particular it maps no character of a string to NUL. *)

Definition compared : list ascii := ["@"; "."; "-"; "_"; "+"; NUL].

Definition keeps_class (f : ascii -> ascii) : Prop :=
  forall c : ascii,
    CType.isspace (f c) = CType.isspace c
    /\ CType.isalnum (f c) = CType.isalnum c
    /\ forall k, In k compared -> is_char k (f c) = is_char k c.

(** Every letter and digit replaced by ['x']. *)
Definition mask (c : ascii) : ascii := if CType.isalnum c then "x" else c.

(** ** Sessions *)

(** Lines as they arrive on [stdin], each closed by a newline. *)
Definition typed_lines (ls : list (list ascii)) : list ascii :=
  List.concat (map (fun l => l ++ [newline]) ls).

(** What the program prints in a turn on a line it does not accept. *)
Definition reply (l : list ascii) : list event :=
  prompt ++ (if strlen l =? 0 then [empty_line] else hints).

(** A line the loop answers with [reply]: complete, free of NUL, shorter
    than [MAX_EMAIL_LENGTH] and not a valid address. *)
Definition refused (l : list ascii) : Prop :=
  ~ In newline l /\ ~ In NUL l /\ strlen l < MAX_EMAIL_LENGTH
  /\ is_valid_email (Some l) = Some false.

(** ** Candidates used as examples *)

(** 244 letters, then "@example.com": 256 characters in all. *)
Definition candidate_256 : cstring :=
  repeat "a" 244 ++ list_ascii_of_string "@example.com".

(** The part of a candidate the validator looks at: its first [len]
    characters, [len] being the length as the [int] holds it. *)
Definition seen (s : cstring) : cstring :=
  firstn (Z.to_nat (int_of_size_t (strlen s))) s.

(** 2^32 characters, one more than an [unsigned int] counts. *)
Definition past_int : nat := Z.to_nat 4294967296.

(** "user@example.com" followed by 2^32 times the character [c]. *)
Definition oversized (c : ascii) : cstring :=
  list_ascii_of_string "user@example.com" ++ repeat c past_int.

(** The characters [isspace] accepts: space, [\t], [\n], [\v], [\f], [\r]. *)
Definition whitespace : list ascii :=
  [" "; "009"; "010"; "011"; "012"; "013"].

(** The symbols a local part may hold besides letters and digits. *)
Definition local_symbols : list ascii := ["."; "-"; "_"; "+"].

(** ** Loops read as traversals of a slice

    A counted loop whose body reads [s[b + i]] visits the characters of a
    slice of [s] in order.  [scan] is that traversal for a body that reads
    one character, [scan2] for a body that reads two adjacent ones. *)

Fixpoint scan {S : Type} (step : Z -> ascii -> S -> res S) (i : Z)
  (l : list ascii) (st : S) : res S :=
  match l with
  | [] => Next st
  | x :: l' => st' <- step i x st ;; scan step (i + 1) l' st'
  end.

Fixpoint scan2 {S : Type} (step : Z -> ascii -> ascii -> S -> res S) (i : Z)
  (l : list ascii) (st : S) : res S :=
  match l with
  | x :: ((y :: _) as l') => st' <- step i x y st ;; scan2 step (i + 1) l' st'
  | _ => Next st
  end.

(** The index of the last [c] among the characters [l], numbered from [i];
    [p] when there is none. *)
Fixpoint last_index (c : ascii) (i : Z) (l : list ascii) (p : Z) : Z :=
  match l with
  | [] => p
  | x :: l' => last_index c (i + 1) l' (if is_char c x then i else p)
  end.

(** * Proofs *)

(** ** The monad *)

Lemma lor_Next (a b : bool) : (Next a ||| Next b) = Next (a || b).
Proof. destruct a; reflexivity. Qed.

Lemma land_Next (a b : bool) : (Next a &&& Next b) = Next (a && b).
Proof. destruct a; reflexivity. Qed.

Lemma reject_if_Next (b : bool) :
  reject_if (Next b) = if b then Return false else Next tt.
Proof. reflexivity. Qed.

Lemma eqc_Next (x c : ascii) : eqc (Next x) c = Next (is_char c x).
Proof. reflexivity. Qed.

Lemma nec_Next (x c : ascii) : nec (Next x) c = Next (negb (is_char c x)).
Proof. reflexivity. Qed.

Lemma isspace_Next (x : ascii) : isspace (Next x) = Next (CType.isspace x).
Proof. reflexivity. Qed.

Lemma not_isalnum_Next (x : ascii) :
  not_isalnum (Next x) = Next (negb (CType.isalnum x)).
Proof. reflexivity. Qed.

(** Once its loads have succeeded, a condition is a pure boolean. *)
Ltac pure_cond :=
  rewrite ?eqc_Next, ?nec_Next, ?isspace_Next, ?not_isalnum_Next,
    ?lor_Next, ?land_Next, ?reject_if_Next.

(** ** Memory *)

Lemma strlen_app (l1 l2 : list ascii) : strlen (l1 ++ l2) = strlen l1 + strlen l2.
Proof. unfold strlen. rewrite length_app. lia. Qed.

Lemma strlen_cons (x : ascii) (l : list ascii) : strlen (x :: l) = strlen l + 1.
Proof. unfold strlen. simpl List.length. lia. Qed.

Lemma strlen_nil : strlen [] = 0.
Proof. reflexivity. Qed.

Lemma strlen_nonneg (l : list ascii) : 0 <= strlen l.
Proof. unfold strlen. lia. Qed.

(** The character that follows a prefix is what a load at the prefix's
    length yields. *)
Lemma load_middle (pre post : list ascii) (x : ascii) (i : Z) :
  i = strlen pre -> load (pre ++ x :: post) i = Next x.
Proof.
  intros ->. unfold load, strlen.
  destruct (Z.ltb_spec (Z.of_nat (List.length pre)) 0) as [H|_]; [lia|].
  rewrite Nat2Z.id, <- app_assoc. simpl.
  rewrite nth_error_app2 by lia. now rewrite Nat.sub_diag.
Qed.

Lemma idx_load (s : cstring) (o i : Z) :
  idx {| obj := s; off := o |} i = load s (o + i).
Proof. reflexivity. Qed.

(** ** Loops *)

Section SliceLoops.

(** A loop over the indices of the slice [mid] of [s = pre ++ mid ++ post],
    whose body reads [s] at the offset [b]. *)
Variables (S : Type) (s : cstring) (b : Z) (body : Z -> S -> res S).

Section OneCharacter.

Variable step : Z -> ascii -> S -> res S.
Hypothesis body_step :
  forall j x st, load s (b + j) = Next x -> body j st = step j x st.

Lemma for_loop_scan (mid pre post : list ascii) (i : Z) (st : S) :
  s = pre ++ mid ++ post ->
  b + i = strlen pre ->
  for_loop (List.length mid) i body st = scan step i mid st.
Proof.
  revert pre post i st.
  induction mid as [|x mid IH]; intros pre post i st Hs Hi.
  - reflexivity.
  - simpl. rewrite (body_step i x st).
    + destruct (step i x st); simpl; trivial.
      apply (IH (pre ++ [x]) post).
      * rewrite Hs, <- app_assoc. reflexivity.
      * rewrite strlen_app, (strlen_cons x []), strlen_nil. lia.
    + rewrite Hs. simpl. now apply load_middle.
Qed.

Lemma for_range_scan (lo hi : Z) (pre mid post : list ascii) (st : S) :
  s = pre ++ mid ++ post ->
  b + lo = strlen pre ->
  hi - lo = strlen mid ->
  for_range lo hi body st = scan step lo mid st.
Proof.
  intros Hs Hlo Hhi. unfold for_range. rewrite Hhi.
  unfold strlen. rewrite Nat2Z.id. now apply for_loop_scan with pre post.
Qed.

End OneCharacter.

Section TwoCharacters.

Variable step : Z -> ascii -> ascii -> S -> res S.
Hypothesis body_step :
  forall j x y st,
    load s (b + j) = Next x -> load s (b + (j + 1)) = Next y ->
    body j st = step j x y st.

Lemma for_loop_scan2 (mid pre post : list ascii) (i : Z) (st : S) :
  s = pre ++ mid ++ post ->
  b + i = strlen pre ->
  for_loop (List.length mid - 1) i body st = scan2 step i mid st.
Proof.
  revert pre post i st.
  induction mid as [|x mid IH]; intros pre post i st Hs Hi.
  - reflexivity.
  - destruct mid as [|y mid]; [reflexivity|].
    replace (List.length (x :: y :: mid) - 1)%nat
      with (Datatypes.S (List.length (y :: mid) - 1)) by (simpl; lia).
    cbn [for_loop scan2]. rewrite (body_step i x y st).
    + destruct (step i x y st); simpl bind; trivial.
      apply (IH (pre ++ [x]) post).
      * rewrite Hs, <- app_assoc. reflexivity.
      * rewrite strlen_app, (strlen_cons x []), strlen_nil. lia.
    + rewrite Hs. simpl. now apply load_middle.
    + rewrite Hs. replace (pre ++ (x :: y :: mid) ++ post)
        with ((pre ++ [x]) ++ y :: mid ++ post)
        by (rewrite <- app_assoc; reflexivity).
      apply load_middle.
      rewrite strlen_app, (strlen_cons x []), strlen_nil. lia.
Qed.

Lemma for_range_scan2 (lo hi : Z) (pre mid post : list ascii) (st : S) :
  s = pre ++ mid ++ post ->
  b + lo = strlen pre ->
  hi - lo = strlen mid - 1 ->
  for_range lo hi body st = scan2 step lo mid st.
Proof.
  intros Hs Hlo Hhi. unfold for_range. rewrite Hhi.
  replace (Z.to_nat (strlen mid - 1)) with (List.length mid - 1)%nat
    by (unfold strlen; lia).
  now apply for_loop_scan2 with pre post.
Qed.

End TwoCharacters.

End SliceLoops.

(** ** What each traversal computes *)

Lemma scan_check (f : ascii -> bool) (l : list ascii) (i : Z) :
  scan (fun _ x _ => if f x then Return false else Next tt) i l tt
  = if existsb f l then Return false else Next tt.
Proof.
  revert i. induction l as [|x l IH]; intros i; simpl; trivial.
  destruct (f x); simpl; trivial.
Qed.

Lemma scan2_check (l : list ascii) (i : Z) :
  scan2 (fun _ x y _ =>
           if is_char "." x && is_char "." y then Return false else Next tt)
        i l tt
  = if has_dotdot l then Return false else Next tt.
Proof.
  revert i. induction l as [|x l IH]; intros i; trivial.
  destruct l as [|y l]; trivial.
  cbn [scan2 has_dotdot].
  destruct (is_char "." x && is_char "." y); simpl bind; trivial.
  apply IH.
Qed.

Lemma scan_count_spaces (l : list ascii) (i p k : Z) :
  scan (fun j x '(p, k) =>
          if CType.isspace x then Return false
          else Next (if is_char "@" x then (j, k + 1) else (p, k)))
       i l (p, k)
  = if existsb CType.isspace l then Return false
    else Next (last_index "@" i l p, k + count_char "@" l).
Proof.
  revert i p k. induction l as [|x l IH]; intros i p k; simpl.
  - f_equal. f_equal. lia.
  - destruct (CType.isspace x); simpl; trivial.
    destruct (is_char "@" x); rewrite IH;
      destruct (existsb CType.isspace l); trivial; do 2 f_equal; lia.
Qed.

Lemma scan_count (c : ascii) (l : list ascii) (i p k : Z) :
  scan (fun j x '(p, k) => Next (if is_char c x then (j, k + 1) else (p, k)))
       i l (p, k)
  = Next (last_index c i l p, k + count_char c l).
Proof.
  revert i p k. induction l as [|x l IH]; intros i p k; simpl.
  - do 2 f_equal. lia.
  - destruct (is_char c x); rewrite IH; do 2 f_equal; lia.
Qed.

(** ** Counting and slicing *)

Lemma count_char_nonneg (c : ascii) (l : list ascii) : 0 <= count_char c l.
Proof. induction l as [|x l IH]; simpl; [lia|]. destruct (is_char c x); lia. Qed.

Lemma count_char_zero (c : ascii) (l : list ascii) :
  count_char c l = 0 <-> existsb (is_char c) l = false.
Proof.
  induction l as [|x l IH]; cbn [count_char existsb]; [tauto|].
  pose proof (count_char_nonneg c l).
  destruct (is_char c x); cbn [orb]; [split; [lia|discriminate]|].
  rewrite <- IH. split; lia.
Qed.

Lemma count_char_app (c : ascii) (l1 l2 : list ascii) :
  count_char c (l1 ++ l2) = count_char c l1 + count_char c l2.
Proof. induction l1 as [|x l1 IH]; simpl; [lia|]. rewrite IH. lia. Qed.

Lemma last_index_none (c : ascii) (l : list ascii) (i p : Z) :
  count_char c l = 0 -> last_index c i l p = p.
Proof.
  revert i p. induction l as [|x l IH]; intros i p; simpl; trivial.
  pose proof (count_char_nonneg c l).
  destruct (is_char c x); intros; [lia|]. apply IH. lia.
Qed.

Lemma local_part_no_at (s : cstring) :
  count_char "@" (Checks.local_part s) = 0.
Proof.
  induction s as [|x s IH]; simpl; trivial.
  destruct (is_char "@" x) eqn:E; simpl; trivial. now rewrite E.
Qed.

(** A candidate with an ['@'] is its local part, the ['@'], its domain part. *)
Lemma split_at (s : cstring) :
  count_char "@" s <> 0 ->
  s = Checks.local_part s ++ "@" :: Checks.domain_part s.
Proof.
  induction s as [|x s IH]; simpl; [congruence|].
  destruct (is_char "@" x) eqn:E; intros H.
  - unfold is_char in E. apply Ascii.eqb_eq in E. now subst.
  - simpl. f_equal. apply IH. lia.
Qed.

Lemma domain_part_count (s : cstring) :
  count_char "@" s <> 0 ->
  count_char "@" (Checks.domain_part s) = count_char "@" s - 1.
Proof.
  induction s as [|x s IH]; simpl; [congruence|].
  destruct (is_char "@" x) eqn:E; intros H; [lia|].
  rewrite IH; lia.
Qed.

(** With exactly one ['@'], the position the first loop leaves in [at_pos] is
    the length of the local part. *)
Lemma last_index_one (s : cstring) (i p : Z) :
  count_char "@" s = 1 ->
  last_index "@" i s p = i + strlen (Checks.local_part s).
Proof.
  revert i p. induction s as [|x s IH]; intros i p; simpl; [lia|].
  destruct (is_char "@" x) eqn:E; intros H.
  - rewrite last_index_none by lia. unfold strlen. simpl. lia.
  - rewrite IH by lia. rewrite strlen_cons. lia.
Qed.

(** With a dot in the domain, the distance from the last dot to the end is
    the length of the TLD. *)
Lemma last_index_tld (d : list ascii) (i p : Z) :
  existsb (is_char ".") d = true ->
  i + strlen d - last_index "." i d p - 1 = strlen (Checks.tld d).
Proof.
  revert i p.
  induction d as [|x d IH]; intros i p; cbn [existsb last_index Checks.tld];
    [discriminate|].
  destruct (existsb (is_char ".") d) eqn:E.
  - intros _. rewrite strlen_cons.
    rewrite <- (IH (i + 1) (if is_char "." x then i else p)) by trivial. lia.
  - rewrite orb_false_r. intros ->.
    rewrite last_index_none by now apply count_char_zero.
    rewrite strlen_cons. lia.
Qed.

Lemma load_first (pre mid post : list ascii) (i : Z) :
  mid <> [] -> i = strlen pre ->
  load (pre ++ mid ++ post) i = Next (hd NUL mid).
Proof.
  destruct mid as [|x mid]; [congruence|]. intros _ Hi.
  now apply load_middle.
Qed.

Lemma load_final (pre mid post : list ascii) (i : Z) :
  mid <> [] -> i = strlen pre + strlen mid - 1 ->
  load (pre ++ mid ++ post) i = Next (last mid NUL).
Proof.
  intros Hmid Hi. destruct (exists_last Hmid) as [mid' [x ->]].
  rewrite last_last, <- app_assoc, app_assoc. apply load_middle.
  rewrite Hi, !strlen_app. rewrite (strlen_cons x []). unfold strlen at 3.
  cbn [List.length]. lia.
Qed.

Lemma ptr_add_ok (s : cstring) (o k : Z) :
  0 <= o + k <= strlen s + 1 ->
  ptr_add {| obj := s; off := o |} k = Next {| obj := s; off := o + k |}.
Proof.
  intros H. unfold ptr_add. cbn [obj off].
  destruct (Z.leb_spec 0 (o + k)); [|lia].
  destruct (Z.leb_spec (o + k) (strlen s + 1)); [reflexivity|lia].
Qed.

Lemma existsb_negb_forallb (f g : ascii -> bool) (l : list ascii) :
  (forall x, f x = negb (g x)) -> existsb f l = negb (forallb g l).
Proof.
  intros H. induction l as [|x l IH]; simpl; trivial.
  rewrite H, IH. now destruct (g x).
Qed.

Lemma strlen_nil_iff (l : list ascii) : strlen l = 0 <-> l = [].
Proof.
  destruct l; [tauto|]. rewrite strlen_cons. pose proof (strlen_nonneg l).
  split; [lia|discriminate].
Qed.

(** ** The validator computes the conjunction of the checks *)

Ltac len_solve := rewrite ?strlen_app, ?strlen_cons, ?strlen_nil; lia.

Ltac body_eq :=
  intros; rewrite ?idx_load; cbn [obj off];
  repeat match goal with
         | H : load _ _ = Next _ |- _ => rewrite !H; clear H
         end;
  pure_cond.

Lemma int_of_size_t_fits (n : Z) :
  0 <= n <= INT_MAX -> int_of_size_t n = n.
Proof.
  intros H. unfold int_of_size_t, INT_MAX in *.
  rewrite Z.mod_small by lia. lia.
Qed.

(** A wrapped length that is not negative is not above the length. *)
Lemma int_of_size_t_below (n : Z) :
  0 <= n -> 0 <= int_of_size_t n -> int_of_size_t n <= n.
Proof.
  unfold int_of_size_t. intros Hn Hw.
  pose proof (Z.mod_le (n + 2147483648) 4294967296). lia.
Qed.

(** The validator on a string whose wrapped length is that of its prefix
    [p]: it judges [p] and never reads what follows. *)
Lemma is_valid_email_body_prefix (p post : list ascii) :
  int_of_size_t (strlen (p ++ post)) = strlen p ->
  is_valid_email_body (Some (p ++ post))
  = Return (Checks.conj Checks.checks p).
Proof.
  intros Hint.
  unfold is_valid_email_body, Checks.conj, Checks.checks. cbn [forallb].
  cbv zeta. rewrite Hint. clear Hint.
  (* length *)
  pure_cond.
  assert (H1 : Checks.length_bound p
               = negb ((strlen p <? MIN_EMAIL_LENGTH) || (strlen p >? MAX_EMAIL_LENGTH))).
  { unfold Checks.length_bound. rewrite Z.gtb_ltb, negb_orb, <- !Z.leb_antisym. reflexivity. }
  rewrite H1.
  destruct ((strlen p <? MIN_EMAIL_LENGTH) || (strlen p >? MAX_EMAIL_LENGTH)) eqn:E1;
    cbn [bind negb andb]; [reflexivity|].
  (* first loop *)
  rewrite for_range_scan with (s := p ++ post) (b:=0) (pre:=[]) (mid:=p)
     (post:=post)
     (step := fun j x '(p, k) =>
          if CType.isspace x then Return false
          else Next (if is_char "@" x then (j, k + 1) else (p, k)));
    [ | intros j x [q k] H; body_eq; cbn [bind];
        destruct (is_char "@" x), (CType.isspace x); reflexivity
      | reflexivity | len_solve | len_solve ].
  rewrite scan_count_spaces. unfold Checks.no_whitespace.
  destruct (existsb CType.isspace p) eqn:E2; cbn [bind negb andb]; [reflexivity|].
  (* exactly one '@' *)
  pure_cond. unfold Checks.one_separator. rewrite Z.add_0_l.
  destruct (Z.eqb_spec (count_char "@" p) 1) as [E3|E3];
    cbn [bind negb andb]; [|reflexivity].
  pose proof (last_index_one p 0 (-1) E3) as HP. rewrite Z.add_0_l in HP.
  assert (Hs : p = Checks.local_part p ++ "@" :: Checks.domain_part p)
    by (apply split_at; lia).
  rewrite HP. clear HP.
  unfold Checks.separator_not_at_edge, Checks.local_edge_dots,
    Checks.local_no_consecutive_dots, Checks.domain_edge_chars,
    Checks.domain_has_dot, Checks.tld_min_length,
    Checks.domain_no_consecutive_dots, Checks.local_char_class,
    Checks.domain_char_class, Checks.separator.
  cbv zeta.
  set (L := Checks.local_part p) in *. set (D := Checks.domain_part p) in *.
  clearbody L D. subst p. clear H1 E1 E2 E3.
  pose proof (strlen_nonneg L) as HL0. pose proof (strlen_nonneg D) as HD0.
  pose proof (strlen_nonneg post) as Hpost0.
  assert (HN : strlen (L ++ "@" :: D) = strlen L + strlen D + 1) by len_solve.
  assert (HS : strlen ((L ++ "@" :: D) ++ post)
               = strlen L + strlen D + 1 + strlen post) by len_solve.
  assert (HsL : (L ++ "@" :: D) ++ post = [] ++ L ++ "@" :: D ++ post)
    by (rewrite <- app_assoc; reflexivity).
  assert (HsD : (L ++ "@" :: D) ++ post = (L ++ ["@"]) ++ D ++ post)
    by (rewrite <- !app_assoc; reflexivity).
  set (S := (L ++ "@" :: D) ++ post) in *.
  set (N := strlen (L ++ "@" :: D)) in *.
  (* '@' not at an edge *)
  destruct ((strlen L =? 0) || (strlen L =? N - 1)) eqn:E4;
    cbn [bind negb andb]; [reflexivity|].
  apply orb_false_elim in E4. destruct E4 as [E4 E5].
  apply Z.eqb_neq in E4, E5.
  assert (HL : L <> []) by (rewrite <- strlen_nil_iff; lia).
  assert (HD : D <> []) by (rewrite <- strlen_nil_iff; lia).
  (* edge dots of the local part *)
  rewrite !idx_load. cbn [obj off].
  assert (Hl0 : load S (0 + 0) = Next (hd NUL L))
    by (rewrite HsL; apply load_first; trivial).
  assert (Hl1 : load S (0 + (strlen L - 1)) = Next (last L NUL))
    by (rewrite HsL; apply load_final; trivial; len_solve).
  rewrite Hl0, Hl1. pure_cond.
  destruct (is_char "." (hd NUL L) || is_char "." (last L NUL));
    cbn [bind negb andb]; [reflexivity|].
  (* consecutive dots in the local part *)
  rewrite for_range_scan2 with (s := S) (b := 0) (pre := [])
    (mid := L) (post := "@" :: D ++ post)
    (step := fun _ x y _ =>
       if is_char "." x && is_char "." y then Return false else Next tt);
    [ | body_eq; reflexivity | exact HsL | len_solve | lia ].
  rewrite scan2_check.
  destruct (has_dotdot L); cbn [bind negb andb]; [reflexivity|].
  (* the domain pointer *)
  rewrite !ptr_add_ok by lia. cbn [bind].
  rewrite ptr_add_ok by lia. cbn [bind].
  (* edges of the domain part *)
  set (B := 0 + strlen L + 1).
  rewrite !idx_load. cbn [obj off].
  assert (Hd0 : load S (B + 0) = Next (hd NUL D)).
  { rewrite HsD.
    apply load_first with (pre := L ++ ["@"]); trivial. subst B. len_solve. }
  assert (Hd1 : load S (B + (N - strlen L - 1 - 1)) = Next (last D NUL)).
  { rewrite HsD.
    apply load_final with (pre := L ++ ["@"]); trivial. subst B. len_solve. }
  rewrite Hd0, Hd1. pure_cond.
  destruct (is_char "." (hd NUL D) || is_char "-" (hd NUL D)
            || is_char "." (last D NUL) || is_char "-" (last D NUL));
    cbn [bind negb andb]; [reflexivity|].
  (* the dots of the domain part *)
  rewrite for_range_scan with (s := S) (b := B) (pre := L ++ ["@"]) (mid := D)
    (post := post)
    (step := fun j x '(p, k) =>
               Next (if is_char "." x then (j, k + 1) else (p, k)));
    [ | intros j x [p k] H; body_eq; reflexivity
      | exact HsD | subst B; len_solve | lia ].
  rewrite scan_count. cbn [bind]. pure_cond. rewrite Z.add_0_l.
  destruct (existsb (is_char ".") D) eqn:E9.
  2:{ apply count_char_zero in E9. rewrite E9. reflexivity. }
  destruct (Z.eqb_spec (count_char "." D) 0) as [E|_];
    [apply count_char_zero in E; congruence|].
  cbn [bind negb andb].
  (* length of the top-level domain *)
  replace (N - strlen L - 1 - last_index "." 0 D (-1) - 1)
    with (strlen (Checks.tld D))
    by (rewrite <- (last_index_tld D 0 (-1) E9); lia).
  rewrite (Z.leb_antisym (strlen (Checks.tld D)) 2).
  destruct (strlen (Checks.tld D) <? 2); cbn [bind negb andb]; [reflexivity|].
  (* consecutive dots in the domain part *)
  rewrite for_range_scan2 with (s := S) (b := B) (pre := L ++ ["@"])
    (mid := D) (post := post)
    (step := fun _ x y _ =>
       if is_char "." x && is_char "." y then Return false else Next tt);
    [ | body_eq; reflexivity | exact HsD | subst B; len_solve | lia ].
  rewrite scan2_check.
  destruct (has_dotdot D); cbn [bind negb andb]; [reflexivity|].
  (* characters of the local part *)
  rewrite for_range_scan with (s := S) (b := 0) (pre := []) (mid := L)
    (post := "@" :: D ++ post)
    (step := fun _ x _ =>
       if negb (CType.isalnum x) && negb (is_char "." x)
          && negb (is_char "-" x) && negb (is_char "_" x)
          && negb (is_char "+" x)
       then Return false else Next tt);
    [ | body_eq; reflexivity | exact HsL | len_solve | lia ].
  rewrite scan_check.
  rewrite existsb_negb_forallb with (g := Checks.local_char)
    by (intros x; unfold Checks.local_char; now rewrite !negb_orb).
  destruct (forallb Checks.local_char L); cbn [bind negb andb]; [|reflexivity].
  (* characters of the domain part *)
  rewrite for_range_scan with (s := S) (b := B) (pre := L ++ ["@"]) (mid := D)
    (post := post)
    (step := fun _ x _ =>
       if negb (CType.isalnum x) && negb (is_char "." x)
          && negb (is_char "-" x)
       then Return false else Next tt);
    [ | body_eq; reflexivity | exact HsD | subst B; len_solve | lia ].
  rewrite scan_check.
  rewrite existsb_negb_forallb with (g := Checks.domain_char)
    by (intros x; unfold Checks.domain_char; now rewrite !negb_orb).
  destruct (forallb Checks.domain_char D); reflexivity.
Qed.

(** The validator judges the part of the candidate it sees. *)
Lemma is_valid_email_seen (s : cstring) :
  is_valid_email (Some s) = Some (Checks.conj Checks.checks (seen s)).
Proof.
  unfold is_valid_email, seen.
  set (len := int_of_size_t (strlen s)).
  pose proof (strlen_nonneg s) as Hs0.
  destruct (Z_lt_le_dec len MIN_EMAIL_LENGTH) as [Hlo|Hlo];
    [|destruct (Z_lt_le_dec MAX_EMAIL_LENGTH len) as [Hhi|Hhi]].
  - (* the wrapped length is too small *)
    assert (Hb : Checks.length_bound (firstn (Z.to_nat len) s) = false).
    { unfold Checks.length_bound. apply andb_false_iff. left.
      apply Z.leb_gt. unfold strlen. rewrite length_firstn.
      unfold MIN_EMAIL_LENGTH in *. lia. }
    unfold Checks.conj, Checks.checks. cbn [forallb]. rewrite Hb.
    unfold is_valid_email_body. cbv zeta. fold len. pure_cond.
    destruct (Z.ltb_spec len MIN_EMAIL_LENGTH); [reflexivity|lia].
  - (* the wrapped length is too large *)
    assert (Hle : len <= strlen s)
      by (apply int_of_size_t_below; unfold MAX_EMAIL_LENGTH in *; lia).
    assert (Hb : Checks.length_bound (firstn (Z.to_nat len) s) = false).
    { unfold Checks.length_bound. apply andb_false_iff. right.
      apply Z.leb_gt. unfold strlen in *. rewrite length_firstn.
      unfold MAX_EMAIL_LENGTH in *. lia. }
    unfold Checks.conj, Checks.checks. cbn [forallb]. rewrite Hb.
    unfold is_valid_email_body. cbv zeta. fold len. pure_cond.
    rewrite orb_comm.
    destruct (Z.gtb_spec len MAX_EMAIL_LENGTH); [reflexivity|lia].
  - (* the wrapped length passes: the loops run on the prefix *)
    assert (Hle : len <= strlen s)
      by (apply int_of_size_t_below; unfold MIN_EMAIL_LENGTH in *; lia).
    rewrite <- (firstn_skipn (Z.to_nat len) s) at 1.
    rewrite is_valid_email_body_prefix; [reflexivity|].
    rewrite firstn_skipn. fold len. unfold strlen in *.
    rewrite length_firstn. unfold MIN_EMAIL_LENGTH in *. lia.
Qed.

Lemma seen_fits (s : cstring) : strlen s <= INT_MAX -> seen s = s.
Proof.
  intros H. unfold seen. pose proof (strlen_nonneg s).
  rewrite int_of_size_t_fits by lia. unfold strlen. rewrite Nat2Z.id.
  apply firstn_all.
Qed.

(** On a candidate whose length fits [int], the validator computes the
    conjunction of the checks. *)
Lemma is_valid_email_spec (s : cstring) :
  strlen s <= INT_MAX ->
  is_valid_email (Some s) = Some (Checks.conj Checks.checks s).
Proof. intros H. now rewrite is_valid_email_seen, seen_fits. Qed.

(** A candidate that passes the length test of the code fits [int]. *)
Lemma length_bound_fits (s : cstring) :
  Checks.length_bound s = true -> strlen s <= INT_MAX.
Proof.
  unfold Checks.length_bound. intros H. apply andb_prop in H.
  destruct H as [_ H]. apply Z.leb_le in H.
  unfold MAX_EMAIL_LENGTH, INT_MAX in *. lia.
Qed.

Lemma short_fits (s : cstring) :
  strlen s <= MAX_EMAIL_LENGTH + 1 -> strlen s <= INT_MAX.
Proof. unfold MAX_EMAIL_LENGTH, INT_MAX. lia. Qed.

Lemma conj_false (ps : list (cstring -> bool)) (p : cstring -> bool)
  (s : cstring) :
  In p ps -> p s = false -> Checks.conj ps s = false.
Proof.
  intros Hin Hp. unfold Checks.conj.
  destruct (forallb (fun q => q s) ps) eqn:E; trivial.
  rewrite forallb_forall in E. specialize (E p Hin). congruence.
Qed.

Lemma conj_true (ps : list (cstring -> bool)) (s : cstring) :
  Checks.conj ps s = true <-> forall p, In p ps -> p s = true.
Proof. unfold Checks.conj. apply forallb_forall. Qed.

Lemma conj_perm (ps qs : list (cstring -> bool)) (s : cstring) :
  Permutation ps qs -> Checks.conj ps s = Checks.conj qs s.
Proof.
  unfold Checks.conj.
  induction 1 as [|p ps qs _ IH|p q ps|ps qs rs _ IH1 _ IH2]; simpl.
  - reflexivity.
  - now rewrite IH.
  - destruct (p s), (q s); reflexivity.
  - now rewrite IH1.
Qed.

Lemma rejected_by (p : cstring -> bool) (s : cstring) :
  strlen s <= INT_MAX ->
  In p Checks.checks -> p s = false -> is_valid_email (Some s) = Some false.
Proof.
  intros Hfit Hin Hp. rewrite is_valid_email_spec by trivial. f_equal.
  now apply conj_false with p.
Qed.

(** What an accepted candidate satisfies, of the part the validator sees. *)
Lemma accepted_seen (s : cstring) (p : cstring -> bool) :
  is_valid_email (Some s) = Some true -> In p Checks.checks ->
  p (seen s) = true.
Proof.
  rewrite is_valid_email_seen. intros H. injection H as H.
  now apply conj_true.
Qed.

Lemma accepted_checks (s : cstring) (p : cstring -> bool) :
  strlen s <= INT_MAX ->
  is_valid_email (Some s) = Some true -> In p Checks.checks -> p s = true.
Proof.
  intros Hfit Hv Hin. rewrite <- (seen_fits s Hfit) at 1.
  now apply accepted_seen.
Qed.

(** ** Characters *)

Lemma is_char_eq (c x : ascii) : is_char c x = true <-> x = c.
Proof. unfold is_char. apply Ascii.eqb_eq. Qed.

Lemma isspace_whitespace (c : ascii) :
  CType.isspace c = true <-> In c whitespace.
Proof.
  assert (E : CType.isspace c = existsb (Ascii.eqb c) whitespace)
    by (destruct c as [[] [] [] [] [] [] [] []]; reflexivity).
  rewrite E, existsb_exists. split.
  - intros [x [Hin Hx]]. apply Ascii.eqb_eq in Hx. now subst.
  - intros Hin. exists c. split; trivial. apply Ascii.eqb_refl.
Qed.

Lemma local_char_cases (c : ascii) :
  Checks.local_char c = true ->
  CType.isalpha c = true \/ CType.isdigit c = true \/ In c local_symbols.
Proof.
  unfold Checks.local_char, CType.isalnum, local_symbols.
  rewrite !orb_true_iff, !is_char_eq. simpl. intuition auto.
Qed.

Lemma domain_char_cases (c : ascii) :
  Checks.domain_char c = true ->
  CType.isalpha c = true \/ CType.isdigit c = true \/ In c local_symbols.
Proof.
  unfold Checks.domain_char, CType.isalnum, local_symbols.
  rewrite !orb_true_iff, !is_char_eq. simpl. intuition auto.
Qed.

(** A character of the domain part outside its class rejects a candidate
    that passes the other checks. *)
Lemma domain_char_rejects (s : cstring) (c : ascii) :
  Checks.conj Checks.checks_but_domain_class s = true ->
  In c (Checks.domain_part s) -> Checks.domain_char c = false ->
  is_valid_email (Some s) = Some false.
Proof.
  intros Hothers Hin Hc. rewrite conj_true in Hothers.
  apply rejected_by with Checks.domain_char_class.
  - apply length_bound_fits, Hothers. simpl. tauto.
  - simpl. tauto.
  - unfold Checks.domain_char_class.
    destruct (forallb Checks.domain_char (Checks.domain_part s)) eqn:E; trivial.
    rewrite forallb_forall in E. specialize (E c Hin). congruence.
Qed.

(** ** Candidates longer than an [int] counts *)

Lemma past_int_Z : Z.of_nat past_int = 4294967296.
Proof. unfold past_int. apply Z2Nat.id. discriminate. Qed.

Lemma past_int_positive : past_int <> 0%nat.
Proof. intros E. pose proof past_int_Z as H. rewrite E in H. discriminate. Qed.

Lemma strlen_repeat (c : ascii) (n : nat) : strlen (repeat c n) = Z.of_nat n.
Proof. unfold strlen. now rewrite repeat_length. Qed.

Lemma in_repeat (c : ascii) (n : nat) : n <> 0%nat -> In c (repeat c n).
Proof. destruct n; [congruence|]. intros _. simpl. now left. Qed.

Lemma count_char_repeat (c : ascii) (n : nat) :
  count_char c (repeat c n) = Z.of_nat n.
Proof.
  induction n as [|n IH]; [reflexivity|].
  cbn [repeat count_char]. unfold is_char at 1. rewrite Ascii.eqb_refl, IH. lia.
Qed.

Lemma firstn_prefix (v tail : list ascii) :
  firstn (List.length v) (v ++ tail) = v.
Proof. induction v as [|x v IH]; simpl; [reflexivity|now rewrite IH]. Qed.

(** 2^32 characters more do not change what the validator sees. *)
Lemma seen_wraps (v tail : list ascii) :
  strlen v <= INT_MAX -> strlen tail = 4294967296 ->
  seen (v ++ tail) = v.
Proof.
  intros Hfit Htail. unfold seen. rewrite strlen_app, Htail.
  pose proof (strlen_nonneg v) as H0.
  replace (int_of_size_t (strlen v + 4294967296)) with (strlen v).
  - unfold strlen. rewrite Nat2Z.id. apply firstn_prefix.
  - unfold int_of_size_t, INT_MAX in *.
    replace (strlen v + 4294967296 + 2147483648)
      with (strlen v + 2147483648 + 1 * 4294967296) by lia.
    rewrite Z_mod_plus_full, Z.mod_small by lia. lia.
Qed.

Lemma strlen_oversized (c : ascii) : strlen (oversized c) = 4294967312.
Proof.
  unfold oversized. rewrite strlen_app, strlen_repeat, past_int_Z.
  reflexivity.
Qed.

(** The validator accepts "user@example.com" followed by 2^32 characters,
    whatever they are: [len] is 16 and the tail is never read. *)
Lemma oversized_accepted (c : ascii) :
  is_valid_email (Some (oversized c)) = Some true.
Proof.
  rewrite is_valid_email_seen. unfold oversized.
  rewrite seen_wraps.
  - reflexivity.
  - discriminate.
  - now rewrite strlen_repeat, past_int_Z.
Qed.

(** ** The conjunction on candidates that fit [int] *)

(** The two length bounds differ at [MAX_EMAIL_LENGTH] only. *)
Lemma length_in_range_bound (s : cstring) :
  strlen s <> MAX_EMAIL_LENGTH ->
  Checks.length_in_range s = Checks.length_bound s.
Proof.
  intros H. unfold Checks.length_in_range, Checks.length_bound. f_equal.
  destruct (Z.ltb_spec (strlen s) MAX_EMAIL_LENGTH),
    (Z.leb_spec (strlen s) MAX_EMAIL_LENGTH); trivial; lia.
Qed.

(** Away from the two defects (a length of exactly 256, a length that does
    not fit [int]) the verdict is the conjunction of the checks of the
    specification, in any order. *)
Lemma conjunction_in_any_order_within (s : cstring)
  (ps : list (cstring -> bool)) :
  strlen s <= INT_MAX -> strlen s <> MAX_EMAIL_LENGTH ->
  Permutation Checks.spec_checks ps ->
  is_valid_email (Some s) = Some (Checks.conj ps s).
Proof.
  intros Hfit H256 Hperm. rewrite is_valid_email_spec by trivial. f_equal.
  rewrite <- (conj_perm Checks.spec_checks ps s Hperm).
  unfold Checks.conj, Checks.spec_checks, Checks.checks. cbn [forallb].
  now rewrite length_in_range_bound.
Qed.

Lemma length_out_of_bounds_rejected (s : cstring) :
  strlen s <= INT_MAX ->
  strlen s < MIN_EMAIL_LENGTH \/ MAX_EMAIL_LENGTH < strlen s ->
  is_valid_email (Some s) = Some false.
Proof.
  intros Hfit H. apply rejected_by with Checks.length_bound; trivial.
  - simpl. tauto.
  - unfold Checks.length_bound. apply andb_false_iff.
    rewrite Z.leb_gt, Z.leb_gt. exact H.
Qed.

Lemma whitespace_rejected (s : cstring) (c : ascii) :
  strlen s <= INT_MAX ->
  In c s -> CType.isspace c = true ->
  is_valid_email (Some s) = Some false.
Proof.
  intros Hfit Hin Hc. apply rejected_by with Checks.no_whitespace; trivial.
  - simpl. tauto.
  - unfold Checks.no_whitespace. apply negb_false_iff, existsb_exists.
    now exists c.
Qed.

Lemma separator_count_rejected (s : cstring) :
  strlen s <= INT_MAX ->
  count_char "@" s = 0 \/ 1 < count_char "@" s ->
  is_valid_email (Some s) = Some false.
Proof.
  intros Hfit H. apply rejected_by with Checks.one_separator; trivial.
  - simpl. tauto.
  - unfold Checks.one_separator. apply Z.eqb_neq. lia.
Qed.

Lemma accepted_alphabet (s : cstring) :
  strlen s <= INT_MAX ->
  is_valid_email (Some s) = Some true ->
  (forall c, In c s ->
     CType.isalpha c = true \/ CType.isdigit c = true
     \/ In c ["."; "-"; "_"; "+"; "@"])
  /\ count_char "@" s = 1.
Proof.
  intros Hfit Hv.
  assert (Hone : count_char "@" s = 1).
  { apply Z.eqb_eq. apply (accepted_checks s Checks.one_separator Hfit Hv).
    simpl. tauto. }
  split; trivial. intros c Hin.
  assert (Hl : forallb Checks.local_char (Checks.local_part s) = true)
    by (apply (accepted_checks s Checks.local_char_class Hfit Hv); simpl; tauto).
  assert (Hd : forallb Checks.domain_char (Checks.domain_part s) = true)
    by (apply (accepted_checks s Checks.domain_char_class Hfit Hv); simpl; tauto).
  rewrite forallb_forall in Hl, Hd.
  rewrite (split_at s) in Hin by lia.
  apply in_app_or in Hin. destruct Hin as [Hin|[Hin|Hin]].
  - destruct (local_char_cases c (Hl c Hin)) as [H|[H|H]]; auto.
    right. right. unfold local_symbols in H. simpl in *. tauto.
  - subst c. right. right. simpl. tauto.
  - destruct (domain_char_cases c (Hd c Hin)) as [H|[H|H]]; auto.
    right. right. unfold local_symbols in H. simpl in *. tauto.
Qed.

(** * The properties of the specification *)

(** The literal scenarios of the specification, run through the code. *)
Example literal_scenarios :
  map is_valid_email
    [ str "user@example.com"; str "user.name+tag@sub.example.co";
      str "@example.com"; str "user@example"; str "user@.example.com";
      str "us er@example.com"; str "user@@example.com"; str "a@b.c";
      str "user@example.c"; str "user..name@example.com" ]
  = map Some [ true; true; false; false; false; false; false; false; false;
               false ].
Proof. reflexivity. Qed.

(** C1: the code at two candidates where its verdict is not the
    conjunction of the checks of the algorithm.  On a well-formed candidate
    of exactly 256 characters, and on "user@example.com" followed by 2^32
    characters, the code returns [true] while the length bound of step 2,
    and so the conjunction, is [false]. *)
Theorem conjunction_differs_from_code :
  (is_valid_email (Some candidate_256) = Some true
   /\ Checks.conj Checks.spec_checks candidate_256 = false)
  /\ (is_valid_email (Some (oversized "a")) = Some true
      /\ Checks.conj Checks.spec_checks (oversized "a") = false).
Proof.
  split; split.
  - vm_compute. reflexivity.
  - vm_compute. reflexivity.
  - apply oversized_accepted.
  - apply conj_false with Checks.length_in_range.
    + simpl. tauto.
    + unfold Checks.length_in_range. rewrite strlen_oversized. reflexivity.
Qed.

(** C2: the code at a candidate longer than the maximum.
    "user@example.com" followed by 2^32 characters has 2^32 + 16 characters;
    [int len] holds 16, the length test passes and the verdict is [true],
    where the claim asks for a rejection. *)
Theorem length_past_int_accepted :
  MAX_EMAIL_LENGTH < strlen (oversized "a")
  /\ int_of_size_t (strlen (oversized "a")) = 16
  /\ is_valid_email (Some (oversized "a")) = Some true.
Proof.
  rewrite strlen_oversized. split; [reflexivity|]. split; [reflexivity|].
  apply oversized_accepted.
Qed.

(** C3: the code at a well-formed candidate of exactly 256 characters: the
    length test lets it through and the verdict is [true], where the claim
    asks for a rejection. *)
Theorem length_256_accepted :
  strlen candidate_256 = MAX_EMAIL_LENGTH /\
  is_valid_email (Some candidate_256) = Some true.
Proof. split; vm_compute; reflexivity. Qed.

(** C4: the code at a candidate that holds whitespace.  In
    "user@example.com" followed by 2^32 spaces the spaces lie past the 16
    characters that [int len] counts; the first loop never reads them and
    the verdict is [true], where the claim asks for a rejection. *)
Theorem whitespace_past_int_accepted :
  In " " (oversized " ")
  /\ CType.isspace " " = true
  /\ is_valid_email (Some (oversized " ")) = Some true.
Proof.
  split; [|split; [reflexivity|apply oversized_accepted]].
  unfold oversized. apply in_or_app. right.
  apply in_repeat, past_int_positive.
Qed.

(** C5: the code at a candidate with more than one ['@'].  In
    "user@example.com" followed by 2^32 times ['@'] the loop that counts
    stops after 16 characters with [at_count] at 1, and the verdict is
    [true], where the claim asks for a rejection. *)
Theorem separators_past_int_accepted :
  1 < count_char "@" (oversized "@")
  /\ is_valid_email (Some (oversized "@")) = Some true.
Proof.
  split; [|apply oversized_accepted].
  unfold oversized. rewrite count_char_app, count_char_repeat, past_int_Z.
  reflexivity.
Qed.

(** With every other check passed, the verdict is the TLD check. *)
Lemma verdict_is_tld_check (s : cstring) :
  Checks.conj Checks.checks_but_tld s = true ->
  is_valid_email (Some s) = Some (Checks.tld_min_length s).
Proof.
  intros H. rewrite conj_true in H.
  rewrite is_valid_email_spec
    by (apply length_bound_fits, H; simpl; tauto).
  f_equal.
  unfold Checks.conj, Checks.checks. cbn [forallb].
  repeat match goal with
         | |- context [?p s] =>
             lazymatch p with
             | Checks.tld_min_length => fail
             | _ => rewrite (H p) by (simpl; tauto)
             end
         end.
  cbn [andb]. apply andb_true_r.
Qed.

(** C6: the length of the top-level domain is the only criterion on it.  For
    a candidate that passes every other check, a TLD of exactly one
    character gives [false] and a TLD of two or more gives [true]; and
    "user@example.c" is rejected. *)
Theorem tld_length_only_criterion :
  (forall s : cstring,
      Checks.conj Checks.checks_but_tld s = true ->
      (strlen (Checks.tld (Checks.domain_part s)) = 1 ->
       is_valid_email (Some s) = Some false)
      /\ (2 <= strlen (Checks.tld (Checks.domain_part s)) ->
          is_valid_email (Some s) = Some true))
  /\ is_valid_email (str "user@example.c") = Some false.
Proof.
  split; [|reflexivity].
  intros s H. rewrite (verdict_is_tld_check s H).
  unfold Checks.tld_min_length. split; intros Ht; f_equal.
  - rewrite Ht. reflexivity.
  - now apply Z.leb_le.
Qed.

Lemma tld_length_only_criterion_witness :
  is_valid_email (str "user@example.c") = Some false /\
  is_valid_email (str "user@example.co") = Some true.
Proof.
  split.
  - apply (proj1 tld_length_only_criterion
             (list_ascii_of_string "user@example.c")); reflexivity.
  - apply (proj1 tld_length_only_criterion
             (list_ascii_of_string "user@example.co")).
    + reflexivity.
    + vm_compute. discriminate.
Defined.

(** C7, as stated, does not hold: no candidate whose domain part contains
    ['_'] or ['+'] is accepted, whatever the other checks say. *)
Lemma domain_symbols_never_accepted :
  ~ exists s : cstring,
      (In "_" (Checks.domain_part s) \/ In "+" (Checks.domain_part s))
      /\ Checks.conj Checks.checks_but_domain_class s = true
      /\ is_valid_email (Some s) = Some true.
Proof.
  intros [s [[Hin|Hin] [Hc Hv]]];
    rewrite (domain_char_rejects s _ Hc Hin) in Hv by reflexivity;
    discriminate.
Qed.

(** C7, amended: the domain-part character class rejects underscores and
    plus signs; a candidate whose domain part contains ['_'] or ['+'] and
    which satisfies every other check is rejected. *)
Theorem domain_symbols_rejected (s : cstring) :
  In "_" (Checks.domain_part s) \/ In "+" (Checks.domain_part s) ->
  Checks.conj Checks.checks_but_domain_class s = true ->
  is_valid_email (Some s) = Some false.
Proof.
  intros [Hin|Hin] Hothers; now apply (domain_char_rejects s _ Hothers Hin).
Qed.

Lemma domain_symbols_rejected_witness :
  is_valid_email (str "user@exa_mple.com") = Some false /\
  is_valid_email (str "user@exa+mple.com") = Some false.
Proof.
  split.
  - apply (@domain_symbols_rejected (list_ascii_of_string "user@exa_mple.com")).
    + left. simpl. tauto.
    + reflexivity.
  - apply (@domain_symbols_rejected (list_ascii_of_string "user@exa+mple.com")).
    + right. simpl. tauto.
    + reflexivity.
Defined.

(** C8: the validator is total: for the null pointer, the empty string and
    every other string it yields a boolean, never a fault (no load outside
    the string and its terminator, no pointer outside the object); the null
    pointer yields [false].  The body consists of loads and comparisons
    only, so nothing is written. *)
Theorem is_valid_email_total :
  is_valid_email None = Some false
  /\ is_valid_email (Some []) = Some false
  /\ forall email : option cstring, exists b : bool,
       is_valid_email email = Some b.
Proof.
  split; [reflexivity|]. split; [reflexivity|].
  intros [s|].
  - rewrite is_valid_email_seen. eauto.
  - exists false. reflexivity.
Qed.

(** C9: the code at an accepted candidate with characters outside the
    alphabet.  "user@example.com" followed by 2^32 times ['!'] is accepted,
    and ['!'] is neither a letter, nor a digit, nor one of ['.'], ['-'],
    ['_'], ['+'], ['@']; followed by 2^32 times ['@'] it is accepted too,
    with more than one ['@']. *)
Theorem bytes_past_int_accepted :
  (is_valid_email (Some (oversized "!")) = Some true
   /\ In "!" (oversized "!")
   /\ CType.isalpha "!" = false /\ CType.isdigit "!" = false
   /\ ~ In "!" ["."; "-"; "_"; "+"; "@"])
  /\ (is_valid_email (Some (oversized "@")) = Some true
      /\ count_char "@" (oversized "@") <> 1).
Proof.
  split.
  - split; [apply oversized_accepted|]. split.
    + unfold oversized. apply in_or_app. right.
      apply in_repeat, past_int_positive.
    + repeat split; try reflexivity. simpl. intuition discriminate.
  - split; [apply oversized_accepted|].
    unfold oversized. rewrite count_char_app, count_char_repeat, past_int_Z.
    discriminate.
Qed.

(** C10: only ['.'] is barred at the edges of the local part: candidates
    whose local part ends or begins with ['-'], ['_'] or ['+'] are accepted,
    among them "user-@example.com" and "_user@example.com". *)
Theorem local_edge_symbols_accepted :
  is_valid_email (str "user-@example.com") = Some true
  /\ is_valid_email (str "_user@example.com") = Some true
  /\ Forall (fun c : ascii =>
       let first := c :: list_ascii_of_string "user@example.com" in
       let final := list_ascii_of_string "user" ++
                    c :: list_ascii_of_string "@example.com" in
       hd NUL (Checks.local_part first) = c
       /\ is_valid_email (Some first) = Some true
       /\ last (Checks.local_part final) NUL = c
       /\ is_valid_email (Some final) = Some true)
     ["-"; "_"; "+"].
Proof.
  split; [reflexivity|]. split; [reflexivity|].
  repeat constructor.
Qed.

(** * The interactive caller *)

(** ** One turn of the loop *)

Lemma load_last (s : cstring) :
  s <> [] -> load s (strlen s - 1) = Next (last s NUL).
Proof.
  intros H. rewrite <- (app_nil_r s) at 1.
  apply (load_final [] s []); trivial.
Qed.

Lemma strip_condition (s : cstring) :
  (Next (strlen s >? 0) &&& eqc (load s (strlen s - 1)) newline)
  = Next (match s with
          | [] => false
          | _ :: _ => Ascii.eqb (last s NUL) newline
          end).
Proof.
  destruct s as [|x s]; [reflexivity|].
  rewrite load_last by discriminate. rewrite eqc_Next, land_Next.
  pose proof (strlen_nonneg s). rewrite strlen_cons.
  destruct (Z.gtb_spec (strlen s + 1) 0); [reflexivity|lia].
Qed.

Lemma store_nul_last (s : cstring) :
  store_nul s (strlen s - 1) = removelast s.
Proof.
  unfold store_nul, strlen. rewrite removelast_firstn_len. f_equal; lia.
Qed.

Lemma strlen_removelast (s : cstring) :
  s <> [] -> strlen (removelast s) = strlen s - 1.
Proof.
  intros H. destruct (exists_last H) as [s' [x ->]].
  rewrite removelast_last, strlen_app, (strlen_cons x []), strlen_nil. lia.
Qed.

Lemma read_chunk_room (room : nat) (input chunk rest : list ascii) :
  read_chunk room input = (chunk, rest) ->
  (List.length chunk <= room)%nat.
Proof.
  revert input chunk rest.
  induction room as [|room IH]; intros [|c input] chunk rest; simpl;
    try (intros [= <- <-]; simpl; lia).
  destruct (Ascii.eqb c newline); [intros [= <- <-]; simpl; lia|].
  destruct (read_chunk room input) as [chunk' rest'] eqn:E.
  intros [= <- <-]. simpl. apply IH in E. lia.
Qed.

Lemma c_string_length (l : list ascii) :
  (List.length (c_string l) <= List.length l)%nat.
Proof.
  induction l as [|c l IH]; simpl; trivial.
  destruct (Ascii.eqb c NUL); simpl; lia.
Qed.

(** What [fgets] leaves in [input_buffer] has a length that fits [int]. *)
Lemma input_buffer_fits (input chunk rest : list ascii) :
  read_chunk 257 input = (chunk, rest) ->
  strlen (c_string chunk) <= MAX_EMAIL_LENGTH + 1.
Proof.
  intros E. apply read_chunk_room in E.
  pose proof (c_string_length chunk). unfold strlen, MAX_EMAIL_LENGTH. lia.
Qed.

Lemma attempt_spec (email_buffer : buffer) (buffer_size : Z) (w : world) :
  attempt email_buffer buffer_size w = turn_of_line email_buffer buffer_size w.
Proof.
  destruct w as [input out]. unfold attempt, turn_of_line, fgets, printf, print.
  cbn [stdin stdout].
  destruct input as [|c input].
  - unfold say. cbn [stdin stdout]. rewrite <- !app_assoc. reflexivity.
  - change (Z.to_nat (MAX_EMAIL_LENGTH + 2 - 1)) with 257%nat.
    destruct (read_chunk 257 (c :: input)) as [chunk rest] eqn:Echunk.
    apply input_buffer_fits in Echunk.
    cbn [stdin stdout].
    rewrite int_of_size_t_fits
      by (pose proof (strlen_nonneg (c_string chunk));
          apply short_fits in Echunk; lia).
    rewrite strip_condition. unfold line_of.
    revert Echunk. generalize (c_string chunk) as s. intros s Hfit.
    set (cond := match s with [] => false | _ :: _ => _ end).
    set (line := strip_newline s).
    assert (E2 : (if cond then store_nul s (strlen s - 1) else s) = line).
    { subst cond line. unfold strip_newline.
      destruct s as [|x s]; [reflexivity|].
      destruct (Ascii.eqb _ _); [apply store_nul_last|reflexivity]. }
    assert (E1 : (if cond then strlen s - 1 else strlen s) = strlen line).
    { rewrite <- E2. destruct cond eqn:Ec; trivial.
      rewrite store_nul_last, strlen_removelast; trivial.
      subst cond. destruct s; discriminate. }
    assert (Hline : strlen line <= INT_MAX)
      by (apply short_fits; rewrite <- E1; destruct cond; lia).
    rewrite E1, E2. clearbody line. clear E1 E2 cond.
    rewrite is_valid_email_spec by trivial. unfold strcpy.
    rewrite <- !app_assoc. cbn [app].
    change (MAX_EMAIL_LENGTH - 1) with 255.
    destruct (strlen line >=? MAX_EMAIL_LENGTH); [reflexivity|].
    destruct (strlen line =? 0); [reflexivity|].
    destruct (Checks.conj Checks.checks line); [|reflexivity].
    destruct (strlen line >=? buffer_size); [reflexivity|].
    destruct (strlen line + 1 <=? capacity email_buffer); [|reflexivity].
    rewrite <- !app_assoc. reflexivity.
Qed.

(** ** What [fgets] and the [getchar] loop take from the input *)

Lemma read_chunk_app (room : nat) (input chunk rest : list ascii) :
  read_chunk room input = (chunk, rest) -> input = chunk ++ rest.
Proof.
  revert input chunk rest.
  induction room as [|room IH]; intros [|c input] chunk rest; simpl;
    try (intros [= <- <-]; reflexivity).
  destruct (Ascii.eqb c newline); [intros [= <- <-]; reflexivity|].
  destruct (read_chunk room input) as [chunk' rest'] eqn:E.
  intros [= <- <-]. simpl. f_equal. now apply IH.
Qed.

Lemma read_chunk_nonempty (room : nat) (c : ascii) (input : list ascii) :
  fst (read_chunk (Datatypes.S room) (c :: input)) <> [].
Proof.
  simpl. destruct (Ascii.eqb c newline); [discriminate|].
  destruct (read_chunk room input). discriminate.
Qed.

Lemma read_chunk_shorter (room : nat) (c : ascii) (input chunk rest : list ascii) :
  read_chunk (Datatypes.S room) (c :: input) = (chunk, rest) ->
  (List.length rest < List.length (c :: input))%nat.
Proof.
  intros E. pose proof (read_chunk_nonempty room c input) as Hne.
  rewrite E in Hne. apply read_chunk_app in E. rewrite E, length_app.
  destruct chunk; [contradiction|]. simpl. lia.
Qed.

Lemma skip_line_length (input : list ascii) :
  (List.length (skip_line input) <= List.length input)%nat.
Proof.
  induction input as [|c input IH]; simpl; trivial.
  destruct (Ascii.eqb c newline); lia.
Qed.

Lemma skip_line_suffix (input : list ascii) :
  exists skipped, input = skipped ++ skip_line input.
Proof.
  induction input as [|c input [skipped IH]]; simpl.
  - now exists [].
  - destruct (Ascii.eqb c newline).
    + now exists [c].
    + exists (c :: skipped). simpl. now f_equal.
Qed.

(** A turn that goes round the loop has taken at least one character. *)
Lemma again_consumes (b : buffer) (size : Z) (w w' : world) :
  attempt b size w = Again w' ->
  (List.length (stdin w') < List.length (stdin w))%nat.
Proof.
  rewrite attempt_spec. unfold turn_of_line.
  destruct (stdin w) as [|c input] eqn:Ein; [discriminate|].
  destruct (read_chunk 257 (c :: input)) as [chunk rest] eqn:E.
  apply read_chunk_shorter in E. pose proof (skip_line_length rest).
  cbv zeta.
  repeat match goal with
         | |- context [if ?c then _ else _] => destruct c
         end; intros [= <-]; cbn [stdin]; lia.
Qed.

(** ** Fuel *)

Lemma input_loop_fuel (b : buffer) (size : Z) (n m : nat) :
  forall w : world,
    (List.length (stdin w) < n)%nat -> (List.length (stdin w) < m)%nat ->
    input_loop n b size w = input_loop m b size w.
Proof.
  revert m. induction n as [|n IH]; intros [|m] w Hn Hm; try lia.
  simpl. destruct (attempt b size w) as [|w'|r b' w'] eqn:E; trivial.
  apply again_consumes in E. apply IH; lia.
Qed.

Lemma input_loop_unfold (b : buffer) (size : Z) (w : world) :
  input_loop (Datatypes.S (List.length (stdin w))) b size w
  = match attempt b size w with
    | Crash => Crashed
    | Again w' => input_loop (Datatypes.S (List.length (stdin w'))) b size w'
    | Leave r b' w' => Returned (r, b') w'
    end.
Proof.
  change (input_loop (Datatypes.S (List.length (stdin w))) b size w)
    with (match attempt b size w with
          | Crash => Crashed
          | Again w' => input_loop (List.length (stdin w)) b size w'
          | Leave r b' w' => Returned (r, b') w'
          end).
  destruct (attempt b size w) as [|w'|r b' w'] eqn:E; trivial.
  apply again_consumes in E. apply input_loop_fuel; lia.
Qed.

(** A property of every world reached through turns that go round the
    loop holds at the start of the turn that returns. *)
Lemma input_loop_last_turn (b : buffer) (size : Z) (P : world -> Prop) :
  (forall w w', P w -> attempt b size w = Again w' -> P w') ->
  forall (w : world) (r : bool) (b' : buffer) (w' : world),
    P w ->
    input_loop (Datatypes.S (List.length (stdin w))) b size w
    = Returned (r, b') w' ->
    exists w0, P w0 /\ attempt b size w0 = Leave r b' w'.
Proof.
  intros Hstep w. remember (List.length (stdin w)) as n eqn:Hn.
  revert w Hn. induction n as [n IH] using lt_wf_ind. intros w Hn r b' w' HP.
  subst n. rewrite input_loop_unfold.
  destruct (attempt b size w) as [|w1|r1 b1 w1] eqn:E; try discriminate.
  - intros H. apply (IH (List.length (stdin w1))) in H; trivial.
    + now apply again_consumes in E.
    + now apply Hstep with w.
  - intros [= -> -> ->]. now exists w.
Qed.

Lemma input_loop_returns (b : buffer) (size : Z) :
  size <= capacity b ->
  forall w : world, exists r b' w',
    input_loop (Datatypes.S (List.length (stdin w))) b size w
    = Returned (r, b') w'.
Proof.
  intros Hcap w. remember (List.length (stdin w)) as n eqn:Hn.
  revert w Hn. induction n as [n IH] using lt_wf_ind. intros w Hn.
  subst n. rewrite input_loop_unfold.
  destruct (attempt b size w) as [|w1|r1 b1 w1] eqn:E.
  - exfalso. revert E. rewrite attempt_spec. unfold turn_of_line.
    destruct (stdin w); [discriminate|].
    destruct (read_chunk 257 _) as [chunk rest]. cbv zeta.
    destruct (_ >=? MAX_EMAIL_LENGTH); [discriminate|].
    destruct (_ =? 0); [discriminate|].
    destruct (Checks.conj _ _); [|discriminate].
    destruct (Z.geb_spec (strlen (line_of chunk)) size); [discriminate|].
    destruct (Z.leb_spec (strlen (line_of chunk) + 1) (capacity b));
      [discriminate|lia].
  - apply (IH (List.length (stdin w1))); trivial.
    now apply again_consumes in E.
  - eauto.
Qed.

(** ** The turn that returns *)

Lemma leave_true (b : buffer) (size : Z) (w : world) (b' : buffer) (w' : world) :
  attempt b size w = Leave true b' w' ->
  exists line,
    b' = {| capacity := capacity b; content := Some line |}
    /\ Checks.conj Checks.checks line = true
    /\ strlen line < size
    /\ strlen line < MAX_EMAIL_LENGTH
    /\ stdout w' = stdout w ++ prompt ++ [accepted_line line].
Proof.
  rewrite attempt_spec. unfold turn_of_line.
  destruct (stdin w); [discriminate|].
  destruct (read_chunk 257 _) as [chunk rest]. cbv zeta.
  destruct (Z.geb_spec (strlen (line_of chunk)) MAX_EMAIL_LENGTH);
    [discriminate|].
  destruct (_ =? 0); [discriminate|].
  destruct (Checks.conj _ _) eqn:Hv; [|discriminate].
  destruct (Z.geb_spec (strlen (line_of chunk)) size); [discriminate|].
  destruct (_ <=? capacity b); [|discriminate].
  intros [= <- <-]. exists (line_of chunk). cbn [stdout]. auto 10.
Qed.

Lemma leave_false (b : buffer) (size : Z) (w : world) (b' : buffer) (w' : world) :
  attempt b size w = Leave false b' w' ->
  b' = b
  /\ ((stdin w' = [] /\ stdout w' = stdout w ++ prompt ++ [read_failed])
      \/ (size < MAX_EMAIL_LENGTH
          /\ stdout w' = stdout w ++ prompt ++ [too_long_for_buffer])).
Proof.
  rewrite attempt_spec. unfold turn_of_line.
  destruct (stdin w) eqn:Ein.
  - intros [= <- <-]. unfold say. cbn [stdin stdout]. auto.
  - destruct (read_chunk 257 _) as [chunk rest]. cbv zeta.
    destruct (Z.geb_spec (strlen (line_of chunk)) MAX_EMAIL_LENGTH);
      [discriminate|].
    destruct (_ =? 0); [discriminate|].
    destruct (Checks.conj _ _) eqn:Hv; [|discriminate].
    destruct (Z.geb_spec (strlen (line_of chunk)) size).
    + intros [= <- <-]. cbn [stdout]. split; trivial. right. split; [lia|trivial].
    + destruct (_ <=? capacity b); discriminate.
Qed.

(** The two ways through [get_email_input]: the parameter check, or the
    loop. *)
Lemma get_email_input_inv (eb : option buffer) (size : Z) (w : world)
  (r : bool) (eb' : option buffer) (w' : world) :
  get_email_input eb size w = Returned (r, eb') w' ->
  (r = false /\ eb' = eb /\ (eb = None \/ size <= 0)
   /\ w' = printf ("Error: Invalid buffer parameters" ++ nl) [] w)
  \/ (exists b b', eb = Some b /\ eb' = Some b' /\ 0 < size
      /\ exists w0, attempt b size w0 = Leave r b' w').
Proof.
  unfold get_email_input. destruct eb as [b|].
  - destruct (Z.leb_spec size 0).
    + intros [= <- <- <-]. left. auto.
    + destruct (input_loop _ b size w) as [| |[r1 b1] w1] eqn:E;
        try discriminate.
      intros [= -> <- ->]. right. exists b, b1. repeat split; trivial.
      destruct (input_loop_last_turn b size (fun _ => True)
                  (fun _ _ _ _ => I) w r b1 w' I E) as [w0 [_ H0]].
      now exists w0.
  - intros [= <- <- <-]. left. auto.
Qed.

Lemma get_email_input_loop (b : buffer) (size : Z) (w : world) :
  0 < size ->
  get_email_input (Some b) size w
  = match input_loop (Datatypes.S (List.length (stdin w))) b size w with
    | Crashed => Crashed
    | Starved => Starved
    | Returned (r, b') w' => Returned (r, Some b') w'
    end.
Proof.
  intros H. unfold get_email_input.
  destruct (Z.leb_spec size 0); [lia|reflexivity].
Qed.


(** ** Lines *)

Lemma read_chunk_line (room : nat) (l rest : list ascii) :
  ~ In newline l -> (List.length l < room)%nat ->
  read_chunk room (l ++ newline :: rest) = (l ++ [newline], rest).
Proof.
  revert room. induction l as [|c l IH]; intros room Hnl Hlen.
  - destruct room; [simpl in Hlen; lia|]. reflexivity.
  - destruct room; [simpl in Hlen; lia|]. simpl.
    destruct (Ascii.eqb_spec c newline) as [->|_]; [simpl in Hnl; tauto|].
    rewrite IH; [reflexivity|simpl in Hnl; tauto|simpl in Hlen; lia].
Qed.

Lemma read_chunk_full (room : nat) (l tail : list ascii) :
  ~ In newline l -> (room <= List.length l)%nat ->
  read_chunk room (l ++ tail) = (firstn room l, skipn room l ++ tail).
Proof.
  revert room. induction l as [|c l IH]; intros room Hnl Hlen.
  - destruct room; [|simpl in Hlen; lia]. destruct tail; reflexivity.
  - destruct room; [reflexivity|]. simpl.
    destruct (Ascii.eqb_spec c newline) as [->|_]; [simpl in Hnl; tauto|].
    rewrite IH; [reflexivity|simpl in Hnl; tauto|simpl in Hlen; lia].
Qed.

Lemma read_chunk_end (room : nat) (l : list ascii) :
  ~ In newline l -> (List.length l <= room)%nat ->
  read_chunk room l = (l, []).
Proof.
  revert room. induction l as [|c l IH]; intros room Hnl Hlen.
  - destruct room; reflexivity.
  - destruct room; [simpl in Hlen; lia|]. simpl.
    destruct (Ascii.eqb_spec c newline) as [->|_]; [simpl in Hnl; tauto|].
    rewrite IH; [reflexivity|simpl in Hnl; tauto|simpl in Hlen; lia].
Qed.

Lemma skip_line_line (l rest : list ascii) :
  ~ In newline l -> skip_line (l ++ newline :: rest) = rest.
Proof.
  induction l as [|c l IH]; intros Hnl; [reflexivity|]. simpl.
  destruct (Ascii.eqb_spec c newline) as [->|_]; [simpl in Hnl; tauto|].
  apply IH. simpl in Hnl. tauto.
Qed.

Lemma c_string_id (l : list ascii) : ~ In NUL l -> c_string l = l.
Proof.
  induction l as [|c l IH]; intros Hn; [reflexivity|]. simpl.
  destruct (Ascii.eqb_spec c NUL) as [->|_]; [simpl in Hn; tauto|].
  f_equal. apply IH. simpl in Hn. tauto.
Qed.

Lemma line_of_line (l : list ascii) :
  ~ In NUL l -> line_of (l ++ [newline]) = l.
Proof.
  intros Hn. unfold line_of. rewrite c_string_id.
  - unfold strip_newline. destruct (l ++ [newline]) eqn:E.
    + now destruct l.
    + rewrite <- E, last_last, removelast_last. reflexivity.
  - rewrite in_app_iff. simpl. intros [H|[H|[]]]; [tauto|discriminate].
Qed.

Lemma c_string_nul (v t : list ascii) :
  ~ In NUL v -> c_string (v ++ NUL :: t) = v.
Proof.
  induction v as [|c v IH]; intros Hn; [reflexivity|]. simpl.
  destruct (Ascii.eqb_spec c NUL) as [->|_]; [simpl in Hn; tauto|].
  f_equal. apply IH. simpl in Hn. tauto.
Qed.

Lemma strip_newline_open (l : list ascii) :
  ~ In newline l -> strip_newline l = l.
Proof.
  intros Hnl. unfold strip_newline. destruct l as [|c l]; trivial.
  destruct (Ascii.eqb_spec (last (c :: l) NUL) newline) as [E|_]; trivial.
  destruct (@exists_last _ (c :: l)) as [l' [x Hx]]; [discriminate|].
  rewrite Hx in *. rewrite last_last in E. subst x.
  exfalso. apply Hnl. rewrite in_app_iff. simpl. tauto.
Qed.

Lemma line_of_open (l : list ascii) :
  ~ In NUL l -> ~ In newline l -> line_of l = l.
Proof.
  intros Hn Hnl. unfold line_of. rewrite c_string_id by trivial.
  now apply strip_newline_open.
Qed.

(** The characters of an accepted candidate. *)
Lemma accepted_chars (s : cstring) (c : ascii) :
  Checks.conj Checks.checks s = true -> In c s ->
  CType.isspace c = false
  /\ (Checks.local_char c = true \/ c = "@" \/ Checks.domain_char c = true).
Proof.
  intros Hv Hin. rewrite conj_true in Hv.
  assert (Hw : Checks.no_whitespace s = true) by (apply Hv; simpl; tauto).
  assert (Hone : Checks.one_separator s = true) by (apply Hv; simpl; tauto).
  assert (Hl : Checks.local_char_class s = true) by (apply Hv; simpl; tauto).
  assert (Hd : Checks.domain_char_class s = true) by (apply Hv; simpl; tauto).
  split.
  - unfold Checks.no_whitespace in Hw. apply negb_true_iff in Hw.
    destruct (CType.isspace c) eqn:E; trivial.
    assert (existsb CType.isspace s = true)
      by (apply existsb_exists; now exists c).
    congruence.
  - unfold Checks.one_separator in Hone. apply Z.eqb_eq in Hone.
    unfold Checks.local_char_class in Hl. unfold Checks.domain_char_class in Hd.
    rewrite forallb_forall in Hl, Hd.
    rewrite (split_at s) in Hin by lia.
    apply in_app_or in Hin. destruct Hin as [Hin|[Hin|Hin]]; auto.
Qed.

Lemma accepted_no_newline_no_nul (s : cstring) :
  Checks.conj Checks.checks s = true -> ~ In newline s /\ ~ In NUL s.
Proof.
  intros Hv. split; intros Hin;
    destruct (accepted_chars s _ Hv Hin) as [Hs [H|[H|H]]];
    discriminate.
Qed.

(** A turn on a line of fewer than [MAX_EMAIL_LENGTH] characters. *)
Lemma attempt_line (b : buffer) (size : Z) (l rest : list ascii)
  (out : list event) :
  ~ In newline l -> ~ In NUL l -> strlen l < MAX_EMAIL_LENGTH ->
  attempt b size {| stdin := l ++ newline :: rest; stdout := out |}
  = let after es := {| stdin := rest; stdout := out ++ prompt ++ es |} in
    if strlen l =? 0 then Again (after [empty_line])
    else if Checks.conj Checks.checks l then
      if strlen l >=? size then Leave false b (after [too_long_for_buffer])
      else if strlen l + 1 <=? capacity b then
        Leave true {| capacity := capacity b; content := Some l |}
          (after [accepted_line l])
      else Crash
    else Again (after hints).
Proof.
  intros Hnl Hn Hlen. rewrite attempt_spec. unfold turn_of_line.
  cbn [stdin stdout].
  destruct (l ++ newline :: rest) as [|c0 l0] eqn:E; [now destruct l|].
  rewrite <- E. clear E.
  rewrite read_chunk_line; trivial.
  - rewrite line_of_line by trivial. cbv zeta.
    destruct (Z.geb_spec (strlen l) MAX_EMAIL_LENGTH); [lia|reflexivity].
  - unfold strlen, MAX_EMAIL_LENGTH in Hlen. lia.
Qed.

Lemma get_email_input_again (b : buffer) (size : Z) (w w' : world) :
  0 < size -> attempt b size w = Again w' ->
  get_email_input (Some b) size w = get_email_input (Some b) size w'.
Proof.
  intros Hs E. rewrite !get_email_input_loop by trivial.
  rewrite (input_loop_unfold b size w), E. reflexivity.
Qed.

Lemma get_email_input_leave (b : buffer) (size : Z) (w w' : world)
  (r : bool) (b' : buffer) :
  0 < size -> attempt b size w = Leave r b' w' ->
  get_email_input (Some b) size w = Returned (r, Some b') w'.
Proof.
  intros Hs E. rewrite get_email_input_loop by trivial.
  rewrite (input_loop_unfold b size w), E. reflexivity.
Qed.
(** * Properties of [get_email_input] and [main] *)

(** X1: with a buffer at least as large as the size it is announced with,
    [get_email_input] returns on every finite input: no turn faults (the copy fits)
    and the loop ends, because a turn that does not return takes at least
    one character from [stdin]. *)
Theorem get_email_input_returns (email_buffer : option buffer)
  (buffer_size : Z) (w : world) :
  (forall b, email_buffer = Some b -> buffer_size <= capacity b) ->
  exists r email_buffer' w',
    get_email_input email_buffer buffer_size w
    = Returned (r, email_buffer') w'.
Proof.
  intros Hcap. unfold get_email_input. destruct email_buffer as [b|]; [|eauto].
  destruct (buffer_size <=? 0); [eauto|].
  destruct (input_loop_returns b buffer_size (Hcap b eq_refl) w)
    as [r [b' [w' ->]]].
  eauto.
Qed.

Lemma get_email_input_returns_witness :
  exists r email_buffer' w',
    get_email_input (Some {| capacity := 20; content := None |}) 20
      (console (typed ["nobody"; "user@example.com"]%string))
    = Returned (r, email_buffer') w'.
Proof.
  apply (get_email_input_returns
           (Some {| capacity := 20; content := None |}) 20).
  intros b [= <-]. simpl. lia.
Defined.

(** X2: when [get_email_input] returns [true], the buffer holds a string
    that [is_valid_email] accepts, shorter than the announced size and
    shorter than [MAX_EMAIL_LENGTH]. *)
Theorem get_email_input_stores_valid (email_buffer : option buffer)
  (buffer_size : Z) (w : world) (email_buffer' : option buffer) (w' : world) :
  get_email_input email_buffer buffer_size w
  = Returned (true, email_buffer') w' ->
  exists b s,
    email_buffer = Some b
    /\ email_buffer' = Some {| capacity := capacity b; content := Some s |}
    /\ is_valid_email (Some s) = Some true
    /\ strlen s < buffer_size
    /\ MIN_EMAIL_LENGTH <= strlen s < MAX_EMAIL_LENGTH.
Proof.
  intros H. apply get_email_input_inv in H.
  destruct H as [[H _]|[b [b' [-> [-> [_ [w0 H]]]]]]]; [discriminate|].
  apply leave_true in H. destruct H as [s [-> [Hv [Hs [Hm _]]]]].
  exists b, s. rewrite is_valid_email_spec by (apply short_fits; lia).
  rewrite Hv. repeat split; trivial.
  rewrite conj_true in Hv.
  assert (Hl : Checks.length_bound s = true) by (apply Hv; simpl; tauto).
  unfold Checks.length_bound in Hl. apply andb_prop in Hl.
  now apply Z.leb_le.
Qed.

Lemma get_email_input_stores_valid_witness :
  exists b s,
    Some {| capacity := 20; content := None |} = Some b
    /\ Some {| capacity := 20;
               content := Some (list_ascii_of_string "user@example.com") |}
       = Some {| capacity := capacity b; content := Some s |}
    /\ is_valid_email (Some s) = Some true
    /\ strlen s < 20
    /\ MIN_EMAIL_LENGTH <= strlen s < MAX_EMAIL_LENGTH.
Proof.
  apply (get_email_input_stores_valid
           (Some {| capacity := 20; content := None |}) 20
           (console (typed ["nobody"; "user@example.com"; "more"]%string))
           (Some {| capacity := 20;
                    content := Some (list_ascii_of_string "user@example.com") |})
           {| stdin := list_ascii_of_string (typed ["more"]%string);
              stdout := prompt ++ hints ++ prompt ++
                        [accepted_line (list_ascii_of_string "user@example.com")] |}).
  vm_compute. reflexivity.
Defined.

(** X3: when [get_email_input] returns [false], the buffer is as it was:
    nothing is written to it on any failing path, nor in the turns that ask
    again. *)
Theorem get_email_input_failure_keeps_buffer (email_buffer : option buffer)
  (buffer_size : Z) (w : world) (email_buffer' : option buffer) (w' : world) :
  get_email_input email_buffer buffer_size w
  = Returned (false, email_buffer') w' ->
  email_buffer' = email_buffer.
Proof.
  intros H. apply get_email_input_inv in H.
  destruct H as [[_ [H _]]|[b [b' [-> [-> [_ [w0 H]]]]]]]; trivial.
  apply leave_false in H. destruct H as [-> _]. reflexivity.
Qed.

Lemma get_email_input_failure_keeps_buffer_witness :
  Some {| capacity := 20; content := Some (list_ascii_of_string "old") |}
  = Some {| capacity := 20; content := Some (list_ascii_of_string "old") |}.
Proof.
  apply (get_email_input_failure_keeps_buffer
           (Some {| capacity := 20;
                    content := Some (list_ascii_of_string "old") |}) 20
           (console (typed ["nobody"; "user@example"]%string))
           (Some {| capacity := 20;
                    content := Some (list_ascii_of_string "old") |})
           {| stdin := [];
              stdout := prompt ++ hints ++ prompt ++ hints ++ prompt ++
                        [read_failed] |}).
  vm_compute. reflexivity.
Defined.

(** X4: with a positive size, [get_email_input] returns [false] in two
    cases only: the input is exhausted, and the last message is the read
    error; or a valid address does not fit the announced size, which is then
    smaller than [MAX_EMAIL_LENGTH], and the last message says so.  An
    invalid, empty or overlong line never ends the call. *)
Theorem get_email_input_failure_causes (b : buffer) (buffer_size : Z)
  (w : world) (email_buffer' : option buffer) (w' : world) :
  0 < buffer_size ->
  get_email_input (Some b) buffer_size w = Returned (false, email_buffer') w' ->
  (stdin w' = [] /\ exists out, stdout w' = out ++ [read_failed])
  \/ (buffer_size < MAX_EMAIL_LENGTH
      /\ exists out, stdout w' = out ++ [too_long_for_buffer]).
Proof.
  intros Hsize H. apply get_email_input_inv in H.
  destruct H as [[_ [_ [[H|H] _]]]|[b0 [b' [_ [_ [_ [w0 H]]]]]]];
    [discriminate|lia|].
  apply leave_false in H. destruct H as [_ [[H1 H2]|[H1 H2]]]; [left|right];
    (split; trivial); exists (stdout w0 ++ prompt);
    rewrite H2, <- app_assoc; reflexivity.
Qed.

Lemma get_email_input_failure_causes_witness :
  (@nil ascii = [] /\ exists out,
      prompt ++ hints ++ prompt ++ [read_failed] = out ++ [read_failed])
  \/ (20 < MAX_EMAIL_LENGTH
      /\ exists out,
        prompt ++ hints ++ prompt ++ [read_failed]
        = out ++ [too_long_for_buffer]).
Proof.
  apply (get_email_input_failure_causes
           {| capacity := 20; content := None |} 20
           (console (typed ["nobody"]%string))
           (Some {| capacity := 20; content := None |})
           {| stdin := [];
              stdout := prompt ++ hints ++ prompt ++ [read_failed] |}).
  - lia.
  - vm_compute. reflexivity.
Defined.

(** X5: [main] ends on every input, with status 0 or 1.  Status 0 comes
    with a valid address of fewer than [MAX_EMAIL_LENGTH] characters, shown
    in the last two messages.  Status 1 comes only when the input is
    exhausted: the buffer of [main] has room for every address the loop can
    accept, so the message about the provided buffer is never printed. *)
Theorem main_exit_status (w : world) :
  (exists s out w',
      main w = Returned 0 w'
      /\ stdout w' = out ++ [accepted_line s; success s]
      /\ is_valid_email (Some s) = Some true
      /\ strlen s < MAX_EMAIL_LENGTH)
  \/ (exists out w',
         main w = Returned 1 w'
         /\ stdin w' = []
         /\ stdout w' = out ++ [read_failed; terminated]).
Proof.
  unfold main.
  set (w1 := printf _ [] (printf _ [] w)).
  set (user_email := {| capacity := MAX_EMAIL_LENGTH; content := None |}).
  destruct (get_email_input (Some user_email) sizeof_user_email w1)
    as [| |[r eb'] w'] eqn:E.
  - exfalso. revert E. rewrite get_email_input_loop by reflexivity.
    destruct (input_loop_returns user_email sizeof_user_email (Z.le_refl _) w1)
      as [r [b' [w' ->]]]. discriminate.
  - exfalso. revert E. rewrite get_email_input_loop by reflexivity.
    destruct (input_loop_returns user_email sizeof_user_email (Z.le_refl _) w1)
      as [r [b' [w' ->]]]. discriminate.
  - apply get_email_input_inv in E.
    destruct E as [[_ [_ [[E|E] _]]]|[b [b' [[= <-] [-> [_ [w0 E]]]]]]];
      [discriminate|now contradiction E|].
    destruct r.
    + apply leave_true in E. destruct E as [s [-> [Hv [_ [Hm Hout]]]]].
      left. exists s, (stdout w0 ++ prompt), (print (success s) w').
      repeat split; trivial.
      * unfold print. cbn [stdout]. rewrite Hout, <- !app_assoc. reflexivity.
      * rewrite is_valid_email_spec by (apply short_fits; lia).
        now rewrite Hv.
    + apply leave_false in E. destruct E as [_ [[Hin Hout]|[Hlt _]]].
      * right. exists (stdout w0 ++ prompt), (print terminated w').
        repeat split; trivial.
        unfold print. cbn [stdout]. rewrite Hout, <- !app_assoc. reflexivity.
      * unfold sizeof_user_email in Hlt. lia.
Qed.

(** X6: the turn on an empty line prints the prompt and the request for a
    non-empty address, takes the line from the input and goes round the
    loop; the call then goes on with what follows the line. *)
Theorem empty_line_asks_again (b : buffer) (buffer_size : Z)
  (rest : list ascii) (out : list event) :
  0 < buffer_size ->
  attempt b buffer_size {| stdin := newline :: rest; stdout := out |}
  = Again {| stdin := rest; stdout := out ++ prompt ++ [empty_line] |}
  /\ get_email_input (Some b) buffer_size
       {| stdin := newline :: rest; stdout := out |}
     = get_email_input (Some b) buffer_size
         {| stdin := rest; stdout := out ++ prompt ++ [empty_line] |}.
Proof.
  intros Hs.
  assert (E : attempt b buffer_size
                {| stdin := newline :: rest; stdout := out |}
              = Again {| stdin := rest;
                         stdout := out ++ prompt ++ [empty_line] |}).
  { apply (attempt_line b buffer_size [] rest out); simpl; try tauto.
    reflexivity. }
  split; trivial. now apply get_email_input_again.
Qed.

Lemma empty_line_asks_again_witness :
  attempt {| capacity := 20; content := None |} 20
    {| stdin := newline :: list_ascii_of_string "user@example.com";
       stdout := [] |}
  = Again {| stdin := list_ascii_of_string "user@example.com";
             stdout := [] ++ prompt ++ [empty_line] |}
  /\ get_email_input (Some {| capacity := 20; content := None |}) 20
       {| stdin := newline :: list_ascii_of_string "user@example.com";
          stdout := [] |}
     = get_email_input (Some {| capacity := 20; content := None |}) 20
         {| stdin := list_ascii_of_string "user@example.com";
            stdout := [] ++ prompt ++ [empty_line] |}.
Proof.
  apply (empty_line_asks_again {| capacity := 20; content := None |} 20).
  lia.
Defined.

(** X7: the turn on a line of 1 to 255 characters that [is_valid_email]
    rejects prints the prompt and the eight hint lines, takes the line from
    the input and goes round the loop; the call then goes on with what
    follows the line. *)
Theorem invalid_line_asks_again (b : buffer) (buffer_size : Z)
  (l rest : list ascii) (out : list event) :
  0 < buffer_size ->
  ~ In newline l -> ~ In NUL l ->
  0 < strlen l < MAX_EMAIL_LENGTH ->
  is_valid_email (Some l) = Some false ->
  attempt b buffer_size {| stdin := l ++ newline :: rest; stdout := out |}
  = Again {| stdin := rest; stdout := out ++ prompt ++ hints |}
  /\ get_email_input (Some b) buffer_size
       {| stdin := l ++ newline :: rest; stdout := out |}
     = get_email_input (Some b) buffer_size
         {| stdin := rest; stdout := out ++ prompt ++ hints |}.
Proof.
  intros Hs Hnl Hn Hlen Hv.
  assert (E : attempt b buffer_size
                {| stdin := l ++ newline :: rest; stdout := out |}
              = Again {| stdin := rest; stdout := out ++ prompt ++ hints |}).
  { rewrite attempt_line by (trivial; lia). cbv zeta.
    rewrite is_valid_email_spec in Hv by (apply short_fits; lia).
    assert (Hc : Checks.conj Checks.checks l = false) by congruence.
    rewrite Hc.
    destruct (Z.eqb_spec (strlen l) 0); [lia|reflexivity]. }
  split; trivial. now apply get_email_input_again.
Qed.

Lemma invalid_line_asks_again_witness :
  attempt {| capacity := 20; content := None |} 20
    {| stdin := list_ascii_of_string "user@example" ++
                newline :: list_ascii_of_string "user@example.com";
       stdout := [] |}
  = Again {| stdin := list_ascii_of_string "user@example.com";
             stdout := [] ++ prompt ++ hints |}
  /\ get_email_input (Some {| capacity := 20; content := None |}) 20
       {| stdin := list_ascii_of_string "user@example" ++
                   newline :: list_ascii_of_string "user@example.com";
          stdout := [] |}
     = get_email_input (Some {| capacity := 20; content := None |}) 20
         {| stdin := list_ascii_of_string "user@example.com";
            stdout := [] ++ prompt ++ hints |}.
Proof.
  apply (invalid_line_asks_again {| capacity := 20; content := None |} 20
           (list_ascii_of_string "user@example")).
  - lia.
  - simpl. intuition discriminate.
  - simpl. intuition discriminate.
  - vm_compute. split; reflexivity.
  - reflexivity.
Defined.

(** X8: a line that [is_valid_email] accepts, shorter than
    [MAX_EMAIL_LENGTH] and than the announced size, ends the call: the
    result is [true], the buffer holds exactly the line without its newline,
    and the input after the line is left unread.  The same holds for a last
    line that the end of the input closes instead of a newline. *)
Theorem valid_line_is_stored (b : buffer) (buffer_size : Z)
  (l rest : list ascii) (out : list event) :
  buffer_size <= capacity b ->
  is_valid_email (Some l) = Some true ->
  strlen l < MAX_EMAIL_LENGTH ->
  strlen l < buffer_size ->
  get_email_input (Some b) buffer_size
    {| stdin := l ++ newline :: rest; stdout := out |}
  = Returned (true, Some {| capacity := capacity b; content := Some l |})
      {| stdin := rest; stdout := out ++ prompt ++ [accepted_line l] |}
  /\ get_email_input (Some b) buffer_size {| stdin := l; stdout := out |}
     = Returned (true, Some {| capacity := capacity b; content := Some l |})
         {| stdin := []; stdout := out ++ prompt ++ [accepted_line l] |}.
Proof.
  intros Hcap Hv Hmax Hsize.
  rewrite is_valid_email_spec in Hv by (apply short_fits; lia).
  assert (Hc : Checks.conj Checks.checks l = true) by congruence.
  clear Hv. rename Hc into Hv.
  destruct (accepted_no_newline_no_nul l Hv) as [Hnl Hn].
  assert (Hmin : Checks.length_bound l = true)
    by (rewrite conj_true in Hv; apply Hv; simpl; tauto).
  unfold Checks.length_bound in Hmin. apply andb_prop in Hmin.
  destruct Hmin as [Hmin _]. apply Z.leb_le in Hmin.
  unfold MIN_EMAIL_LENGTH in Hmin.
  split; apply get_email_input_leave; try lia.
  - rewrite attempt_line by trivial. cbv zeta. rewrite Hv.
    destruct (Z.eqb_spec (strlen l) 0); [lia|].
    destruct (Z.geb_spec (strlen l) buffer_size); [lia|].
    destruct (Z.leb_spec (strlen l + 1) (capacity b)); [reflexivity|lia].
  - rewrite attempt_spec. unfold turn_of_line. cbn [stdin stdout].
    destruct l as [|c0 l0]; [rewrite strlen_nil in Hmin; lia|].
    rewrite read_chunk_end
      by (trivial; unfold strlen, MAX_EMAIL_LENGTH in Hmax; lia).
    rewrite line_of_open by trivial. cbv zeta. rewrite Hv.
    destruct (Z.geb_spec (strlen (c0 :: l0)) MAX_EMAIL_LENGTH); [lia|].
    destruct (Z.eqb_spec (strlen (c0 :: l0)) 0); [lia|].
    destruct (Z.geb_spec (strlen (c0 :: l0)) buffer_size); [lia|].
    destruct (Z.leb_spec (strlen (c0 :: l0) + 1) (capacity b));
      [reflexivity|lia].
Qed.

Lemma valid_line_is_stored_witness :
  get_email_input (Some {| capacity := 20; content := None |}) 20
    {| stdin := list_ascii_of_string "user@example.com" ++
                newline :: list_ascii_of_string "more";
       stdout := [] |}
  = Returned (true,
              Some {| capacity := 20;
                      content := Some (list_ascii_of_string "user@example.com") |})
      {| stdin := list_ascii_of_string "more";
         stdout := [] ++ prompt ++
                   [accepted_line (list_ascii_of_string "user@example.com")] |}
  /\ get_email_input (Some {| capacity := 20; content := None |}) 20
       {| stdin := list_ascii_of_string "user@example.com"; stdout := [] |}
     = Returned (true,
                 Some {| capacity := 20;
                         content := Some (list_ascii_of_string "user@example.com") |})
         {| stdin := [];
            stdout := [] ++ prompt ++
                      [accepted_line (list_ascii_of_string "user@example.com")] |}.
Proof.
  apply (valid_line_is_stored {| capacity := 20; content := None |} 20
           (list_ascii_of_string "user@example.com")
           (list_ascii_of_string "more") []).
  - simpl. lia.
  - reflexivity.
  - vm_compute. reflexivity.
  - vm_compute. reflexivity.
Defined.

(** X9: the turn on a line of more than [MAX_EMAIL_LENGTH] characters
    prints the prompt and the too-long message, takes the whole line with
    its newline from the input and goes round the loop; the call then goes
    on with the next line. *)
Theorem overlong_line_is_dropped (b : buffer) (buffer_size : Z)
  (l rest : list ascii) (out : list event) :
  0 < buffer_size ->
  ~ In newline l -> ~ In NUL l ->
  MAX_EMAIL_LENGTH < strlen l ->
  attempt b buffer_size {| stdin := l ++ newline :: rest; stdout := out |}
  = Again {| stdin := rest; stdout := out ++ prompt ++ [too_long] |}
  /\ get_email_input (Some b) buffer_size
       {| stdin := l ++ newline :: rest; stdout := out |}
     = get_email_input (Some b) buffer_size
         {| stdin := rest; stdout := out ++ prompt ++ [too_long] |}.
Proof.
  intros Hs Hnl Hn Hlen.
  assert (E : attempt b buffer_size
                {| stdin := l ++ newline :: rest; stdout := out |}
              = Again {| stdin := rest;
                         stdout := out ++ prompt ++ [too_long] |}).
  { unfold strlen, MAX_EMAIL_LENGTH in Hlen.
    rewrite attempt_spec. unfold turn_of_line. cbn [stdin stdout].
    destruct (l ++ newline :: rest) as [|c0 l0] eqn:E; [now destruct l|].
    rewrite <- E. clear E.
    rewrite read_chunk_full by (trivial; lia).
    assert (Hin : forall c, In c (firstn 257 l) -> In c l).
    { intros c Hc. rewrite <- (firstn_skipn 257 l). apply in_or_app.
      now left. }
    rewrite line_of_open by (intros H; apply Hin in H; tauto). cbv zeta.
    assert (Hf : strlen (firstn 257 l) = 257)
      by (unfold strlen; rewrite length_firstn; lia).
    rewrite Hf. change (257 >=? MAX_EMAIL_LENGTH) with true. cbv iota.
    rewrite skip_line_line; trivial.
    intros H. apply Hnl. rewrite <- (firstn_skipn 257 l). apply in_or_app.
    now right. }
  split; trivial. now apply get_email_input_again.
Qed.

Lemma overlong_line_is_dropped_witness :
  attempt {| capacity := 20; content := None |} 20
    {| stdin := repeat "a" 300 ++
                newline :: list_ascii_of_string "user@example.com";
       stdout := [] |}
  = Again {| stdin := list_ascii_of_string "user@example.com";
             stdout := [] ++ prompt ++ [too_long] |}
  /\ get_email_input (Some {| capacity := 20; content := None |}) 20
       {| stdin := repeat "a" 300 ++
                   newline :: list_ascii_of_string "user@example.com";
          stdout := [] |}
     = get_email_input (Some {| capacity := 20; content := None |}) 20
         {| stdin := list_ascii_of_string "user@example.com";
            stdout := [] ++ prompt ++ [too_long] |}.
Proof.
  apply (overlong_line_is_dropped {| capacity := 20; content := None |} 20
           (repeat "a" 300)).
  - lia.
  - intros H. apply repeat_spec in H. discriminate.
  - intros H. apply repeat_spec in H. discriminate.
  - vm_compute. reflexivity.
Defined.

(** X10: the turn on a line of exactly [MAX_EMAIL_LENGTH] characters prints
    the prompt and the too-long message and takes from the input the line
    and also the whole line after it: [fgets] has already taken the newline,
    so the [getchar] loop that is to drop the rest of the line drops the
    next line, whatever it holds.  The call then goes on with what follows
    that second line. *)
Theorem line_of_max_length_drops_next (b : buffer) (buffer_size : Z)
  (l next rest : list ascii) (out : list event) :
  0 < buffer_size ->
  ~ In newline l -> ~ In NUL l ->
  strlen l = MAX_EMAIL_LENGTH ->
  ~ In newline next ->
  attempt b buffer_size
    {| stdin := l ++ newline :: next ++ newline :: rest; stdout := out |}
  = Again {| stdin := rest; stdout := out ++ prompt ++ [too_long] |}
  /\ get_email_input (Some b) buffer_size
       {| stdin := l ++ newline :: next ++ newline :: rest; stdout := out |}
     = get_email_input (Some b) buffer_size
         {| stdin := rest; stdout := out ++ prompt ++ [too_long] |}.
Proof.
  intros Hs Hnl Hn Hlen Hnext.
  assert (E : attempt b buffer_size
                {| stdin := l ++ newline :: next ++ newline :: rest;
                   stdout := out |}
              = Again {| stdin := rest;
                         stdout := out ++ prompt ++ [too_long] |}).
  { rewrite attempt_spec. unfold turn_of_line. cbn [stdin stdout].
    destruct (l ++ newline :: next ++ newline :: rest) as [|c0 l0] eqn:E;
      [now destruct l|].
    rewrite <- E. clear E.
    rewrite read_chunk_line
      by (trivial; unfold strlen, MAX_EMAIL_LENGTH in Hlen; lia).
    rewrite line_of_line by trivial. cbv zeta. rewrite Hlen.
    change (MAX_EMAIL_LENGTH >=? MAX_EMAIL_LENGTH) with true. cbv iota.
    now rewrite skip_line_line. }
  split; trivial. now apply get_email_input_again.
Qed.

Lemma line_of_max_length_drops_next_witness :
  attempt {| capacity := 20; content := None |} 20
    {| stdin := repeat "a" 256 ++
                newline :: list_ascii_of_string "user@example.com" ++
                newline :: list_ascii_of_string "later";
       stdout := [] |}
  = Again {| stdin := list_ascii_of_string "later";
             stdout := [] ++ prompt ++ [too_long] |}
  /\ get_email_input (Some {| capacity := 20; content := None |}) 20
       {| stdin := repeat "a" 256 ++
                   newline :: list_ascii_of_string "user@example.com" ++
                   newline :: list_ascii_of_string "later";
          stdout := [] |}
     = get_email_input (Some {| capacity := 20; content := None |}) 20
         {| stdin := list_ascii_of_string "later";
            stdout := [] ++ prompt ++ [too_long] |}.
Proof.
  apply (line_of_max_length_drops_next
           {| capacity := 20; content := None |} 20 (repeat "a" 256)
           (list_ascii_of_string "user@example.com")).
  - lia.
  - intros H. apply repeat_spec in H. discriminate.
  - intros H. apply repeat_spec in H. discriminate.
  - vm_compute. reflexivity.
  - simpl. intuition discriminate.
Defined.

(** * Further properties of [is_valid_email] *)





Section Substitution.

Variable f : ascii -> ascii.
Hypothesis f_keeps : keeps_class f.

Lemma keeps_is_char (k x : ascii) :
  In k compared -> is_char k (f x) = is_char k x.
Proof. intros H. now apply f_keeps. Qed.

Lemma keeps_at (x : ascii) : is_char "@" (f x) = is_char "@" x.
Proof. apply keeps_is_char. simpl. tauto. Qed.

Lemma keeps_dot (x : ascii) : is_char "." (f x) = is_char "." x.
Proof. apply keeps_is_char. simpl. tauto. Qed.

Lemma keeps_hyphen (x : ascii) : is_char "-" (f x) = is_char "-" x.
Proof. apply keeps_is_char. simpl. tauto. Qed.

Lemma keeps_local_char (x : ascii) :
  Checks.local_char (f x) = Checks.local_char x.
Proof.
  unfold Checks.local_char.
  rewrite !keeps_is_char by (simpl; tauto).
  now destruct (f_keeps x) as [_ [-> _]].
Qed.

Lemma keeps_domain_char (x : ascii) :
  Checks.domain_char (f x) = Checks.domain_char x.
Proof.
  unfold Checks.domain_char.
  rewrite !keeps_is_char by (simpl; tauto).
  now destruct (f_keeps x) as [_ [-> _]].
Qed.

Lemma strlen_map (l : list ascii) : strlen (map f l) = strlen l.
Proof. unfold strlen. now rewrite length_map. Qed.

Lemma existsb_map_keeps (p : ascii -> bool) (l : list ascii) :
  (forall x, p (f x) = p x) -> existsb p (map f l) = existsb p l.
Proof. intros H. induction l as [|x l IH]; simpl; [|rewrite H, IH]; trivial. Qed.

Lemma forallb_map_keeps (p : ascii -> bool) (l : list ascii) :
  (forall x, p (f x) = p x) -> forallb p (map f l) = forallb p l.
Proof. intros H. induction l as [|x l IH]; simpl; [|rewrite H, IH]; trivial. Qed.

Lemma hd_map_keeps (p : ascii -> bool) (l : list ascii) :
  (forall x, p (f x) = p x) -> p (hd NUL (map f l)) = p (hd NUL l).
Proof. intros H. destruct l; simpl; trivial. Qed.

Lemma last_map_keeps (p : ascii -> bool) (l : list ascii) :
  (forall x, p (f x) = p x) -> p (last (map f l) NUL) = p (last l NUL).
Proof.
  intros H. induction l as [|x l IH]; trivial.
  destruct l as [|y l]; [apply H|]. exact IH.
Qed.

Lemma count_char_map (l : list ascii) :
  count_char "@" (map f l) = count_char "@" l.
Proof.
  induction l as [|x l IH]; trivial.
  cbn [map count_char]. now rewrite keeps_at, IH.
Qed.

Lemma has_dotdot_map (l : list ascii) : has_dotdot (map f l) = has_dotdot l.
Proof.
  induction l as [|x l IH]; trivial.
  destruct l as [|y l]; trivial.
  change (has_dotdot (map f (x :: y :: l)))
    with ((is_char "." (f x) && is_char "." (f y))
          || has_dotdot (map f (y :: l))).
  rewrite IH, !keeps_dot. reflexivity.
Qed.

Lemma local_part_map (s : cstring) :
  Checks.local_part (map f s) = map f (Checks.local_part s).
Proof.
  induction s as [|x s IH]; trivial.
  cbn [map Checks.local_part]. rewrite keeps_at, IH.
  now destruct (is_char "@" x).
Qed.

Lemma domain_part_map (s : cstring) :
  Checks.domain_part (map f s) = map f (Checks.domain_part s).
Proof.
  induction s as [|x s IH]; trivial.
  cbn [map Checks.domain_part]. rewrite keeps_at, IH.
  now destruct (is_char "@" x).
Qed.

Lemma tld_map (d : list ascii) :
  Checks.tld (map f d) = map f (Checks.tld d).
Proof.
  induction d as [|x d IH]; trivial.
  cbn [map Checks.tld].
  rewrite (existsb_map_keeps (is_char ".") d keeps_dot), keeps_dot, IH.
  destruct (existsb (is_char ".") d), (is_char "." x); reflexivity.
Qed.

Lemma conj_map (s : cstring) :
  Checks.conj Checks.checks (map f s) = Checks.conj Checks.checks s.
Proof.
  unfold Checks.conj, Checks.checks. cbn [forallb].
  unfold Checks.length_bound, Checks.no_whitespace, Checks.one_separator,
    Checks.separator_not_at_edge, Checks.separator, Checks.local_edge_dots,
    Checks.local_no_consecutive_dots, Checks.domain_edge_chars,
    Checks.domain_has_dot, Checks.tld_min_length,
    Checks.domain_no_consecutive_dots, Checks.local_char_class,
    Checks.domain_char_class.
  cbv zeta.
  rewrite local_part_map, domain_part_map, tld_map, !strlen_map,
    count_char_map, !has_dotdot_map.
  rewrite (existsb_map_keeps CType.isspace s) by (intros x; apply f_keeps).
  rewrite (existsb_map_keeps (is_char ".") _ keeps_dot).
  rewrite (forallb_map_keeps Checks.local_char _ keeps_local_char).
  rewrite (forallb_map_keeps Checks.domain_char _ keeps_domain_char).
  rewrite !(hd_map_keeps (is_char ".") _ keeps_dot).
  rewrite !(hd_map_keeps (is_char "-") _ keeps_hyphen).
  rewrite !(last_map_keeps (is_char ".") _ keeps_dot).
  rewrite !(last_map_keeps (is_char "-") _ keeps_hyphen).
  reflexivity.
Qed.

End Substitution.

Lemma mask_keeps_class : keeps_class mask.
Proof.
  intros c. split; [|split].
  - destruct c as [[] [] [] [] [] [] [] []]; reflexivity.
  - destruct c as [[] [] [] [] [] [] [] []]; reflexivity.
  - intros k Hk. simpl in Hk.
    destruct Hk as [<-|[<-|[<-|[<-|[<-|[<-|[]]]]]]];
      destruct c as [[] [] [] [] [] [] [] []]; reflexivity.
Qed.

(** X12: the verdict depends only on the class of each character.  A
    substitution that no test of the validator can see ([isspace],
    [isalnum], equality with ['@'], ['.'], ['-'], ['_'], ['+'] and with the
    terminator NUL) leaves the verdict unchanged: any letter or digit can
    stand for any other. *)
Theorem verdict_depends_on_classes (f : ascii -> ascii) (s : cstring) :
  keeps_class f ->
  is_valid_email (Some (map f s)) = is_valid_email (Some s).
Proof.
  intros Hf. rewrite !is_valid_email_seen. f_equal.
  unfold seen. rewrite strlen_map, firstn_map. now apply conj_map.
Qed.

Lemma verdict_depends_on_classes_witness :
  is_valid_email (Some (map mask (list_ascii_of_string "user.name+tag@sub.example.co")))
  = is_valid_email (str "user.name+tag@sub.example.co").
Proof.
  apply (verdict_depends_on_classes mask
           (list_ascii_of_string "user.name+tag@sub.example.co")).
  exact mask_keeps_class.
Defined.

(** * A NUL in the input *)

(** X13: what follows a NUL byte in a line is ignored.  Take a line of
    at most 256 bytes, NUL included, whose part before the NUL is a valid
    address that fits the buffer: [get_email_input] accepts and stores that
    part; the bytes from the NUL to the newline are taken from the input and
    never looked at. *)
Theorem text_after_nul_is_ignored (b : buffer) (buffer_size : Z)
  (v junk rest : list ascii) (out : list event) :
  buffer_size <= capacity b ->
  is_valid_email (Some v) = Some true ->
  strlen v < buffer_size ->
  ~ In newline junk ->
  strlen v + strlen junk < MAX_EMAIL_LENGTH ->
  get_email_input (Some b) buffer_size
    {| stdin := v ++ NUL :: junk ++ newline :: rest; stdout := out |}
  = Returned (true, Some {| capacity := capacity b; content := Some v |})
      {| stdin := rest; stdout := out ++ prompt ++ [accepted_line v] |}.
Proof.
  intros Hcap Hv Hsize Hjunk Hlen.
  pose proof (strlen_nonneg junk) as Hj.
  rewrite is_valid_email_spec in Hv by (apply short_fits; lia).
  assert (Hc : Checks.conj Checks.checks v = true) by congruence.
  clear Hv. destruct (accepted_no_newline_no_nul v Hc) as [Hnl Hn].
  assert (Hmin : Checks.length_bound v = true)
    by (rewrite conj_true in Hc; apply Hc; simpl; tauto).
  unfold Checks.length_bound in Hmin. apply andb_prop in Hmin.
  destruct Hmin as [Hmin _]. apply Z.leb_le in Hmin.
  unfold MIN_EMAIL_LENGTH in Hmin.
  apply get_email_input_leave; [lia|].
  rewrite attempt_spec. unfold turn_of_line. cbn [stdin stdout].
  destruct (v ++ NUL :: junk ++ newline :: rest) as [|c0 l0] eqn:E;
    [now destruct v|].
  rewrite <- E. clear E.
  replace (v ++ NUL :: junk ++ newline :: rest)
    with ((v ++ NUL :: junk) ++ newline :: rest)
    by (rewrite <- app_assoc; reflexivity).
  rewrite read_chunk_line.
  - unfold line_of. rewrite <- app_assoc. cbn [app].
    rewrite c_string_nul by trivial. rewrite strip_newline_open by trivial.
    cbv zeta. rewrite Hc.
    destruct (Z.geb_spec (strlen v) MAX_EMAIL_LENGTH); [lia|].
    destruct (Z.eqb_spec (strlen v) 0); [lia|].
    destruct (Z.geb_spec (strlen v) buffer_size); [lia|].
    destruct (Z.leb_spec (strlen v + 1) (capacity b)); [reflexivity|lia].
  - rewrite in_app_iff. simpl. intros [H|[H|H]]; [tauto|discriminate|tauto].
  - rewrite length_app. simpl. unfold strlen, MAX_EMAIL_LENGTH in Hlen. lia.
Qed.

Lemma text_after_nul_is_ignored_witness :
  get_email_input (Some {| capacity := 20; content := None |}) 20
    {| stdin := list_ascii_of_string "user@example.com" ++
                NUL :: list_ascii_of_string " <not looked at>" ++
                newline :: list_ascii_of_string "more";
       stdout := [] |}
  = Returned (true,
              Some {| capacity := 20;
                      content := Some (list_ascii_of_string "user@example.com") |})
      {| stdin := list_ascii_of_string "more";
         stdout := [] ++ prompt ++
                   [accepted_line (list_ascii_of_string "user@example.com")] |}.
Proof.
  apply (text_after_nul_is_ignored {| capacity := 20; content := None |} 20
           (list_ascii_of_string "user@example.com")
           (list_ascii_of_string " <not looked at>")
           (list_ascii_of_string "more") []).
  - simpl. lia.
  - reflexivity.
  - vm_compute. reflexivity.
  - simpl. intuition discriminate.
  - vm_compute. reflexivity.
Defined.

(** * Sessions *)

Lemma session (b : buffer) (size : Z) (v rest : list ascii) :
  size <= capacity b ->
  is_valid_email (Some v) = Some true ->
  strlen v < MAX_EMAIL_LENGTH ->
  strlen v < size ->
  forall (bad : list (list ascii)) (out : list event),
    Forall refused bad ->
    get_email_input (Some b) size
      {| stdin := typed_lines bad ++ v ++ newline :: rest; stdout := out |}
    = Returned (true, Some {| capacity := capacity b; content := Some v |})
        {| stdin := rest;
           stdout := out ++ List.concat (map reply bad) ++ prompt
                     ++ [accepted_line v] |}.
Proof.
  intros Hcap Hv Hmax Hsize.
  rewrite is_valid_email_spec in Hv by (apply short_fits; lia).
  assert (Hc : Checks.conj Checks.checks v = true) by congruence.
  clear Hv. destruct (accepted_no_newline_no_nul v Hc) as [Hnl Hn].
  assert (Hmin : Checks.length_bound v = true)
    by (rewrite conj_true in Hc; apply Hc; simpl; tauto).
  unfold Checks.length_bound in Hmin. apply andb_prop in Hmin.
  destruct Hmin as [Hmin _]. apply Z.leb_le in Hmin.
  unfold MIN_EMAIL_LENGTH in Hmin.
  induction bad as [|l bad IH]; intros out Hbad.
  - cbn [typed_lines map List.concat app]. apply get_email_input_leave; [lia|].
    rewrite attempt_line by trivial. cbv zeta. rewrite Hc.
    destruct (Z.eqb_spec (strlen v) 0); [lia|].
    destruct (Z.geb_spec (strlen v) size); [lia|].
    destruct (Z.leb_spec (strlen v + 1) (capacity b)); [reflexivity|lia].
  - inversion Hbad as [|? ? [Hlnl [Hln [Hlmax Hlv]]] Hbad']. subst.
    unfold typed_lines. cbn [map List.concat]. fold (typed_lines bad).
    rewrite <- !app_assoc. cbn [app].
    rewrite get_email_input_again
      with (w' := {| stdin := typed_lines bad ++ v ++ newline :: rest;
                     stdout := out ++ reply l |}); [|lia|].
    + rewrite IH by trivial. rewrite <- !app_assoc. reflexivity.
    + rewrite attempt_line by trivial. cbv zeta. unfold reply.
      rewrite is_valid_email_spec in Hlv by (apply short_fits; lia).
      assert (Hlc : Checks.conj Checks.checks l = false) by congruence.
      rewrite Hlc. destruct (strlen l =? 0); reflexivity.
Qed.

(** X14: the first valid line wins.  After any number of lines that are
    refused (empty, or rejected by [is_valid_email]), a valid line that fits
    is stored and ends the call; each refused line has been answered with
    its reply, in order, and the input after the valid line is left
    unread. *)
Theorem first_valid_line_wins (b : buffer) (buffer_size : Z)
  (bad : list (list ascii)) (v rest : list ascii) (out : list event) :
  buffer_size <= capacity b ->
  Forall refused bad ->
  is_valid_email (Some v) = Some true ->
  strlen v < MAX_EMAIL_LENGTH ->
  strlen v < buffer_size ->
  get_email_input (Some b) buffer_size
    {| stdin := typed_lines bad ++ v ++ newline :: rest; stdout := out |}
  = Returned (true, Some {| capacity := capacity b; content := Some v |})
      {| stdin := rest;
         stdout := out ++ List.concat (map reply bad) ++ prompt
                   ++ [accepted_line v] |}.
Proof. intros. now apply session. Qed.

Lemma first_valid_line_wins_witness :
  get_email_input (Some {| capacity := 20; content := None |}) 20
    {| stdin := typed_lines [list_ascii_of_string "nobody"; [];
                             list_ascii_of_string "user@example"]
                ++ list_ascii_of_string "user@example.com"
                ++ newline :: list_ascii_of_string "more";
       stdout := [] |}
  = Returned (true,
              Some {| capacity := 20;
                      content := Some (list_ascii_of_string "user@example.com") |})
      {| stdin := list_ascii_of_string "more";
         stdout := [] ++ List.concat (map reply [list_ascii_of_string "nobody"; [];
                                            list_ascii_of_string "user@example"])
                   ++ prompt
                   ++ [accepted_line (list_ascii_of_string "user@example.com")] |}.
Proof.
  apply (first_valid_line_wins {| capacity := 20; content := None |} 20).
  - simpl. lia.
  - repeat constructor; simpl; intuition discriminate.
  - reflexivity.
  - vm_compute. reflexivity.
  - vm_compute. reflexivity.
Defined.

(** X15: [main] on such a session ends with status 0: it prints the banner,
    the replies to the refused lines, the acceptance and the success
    message, both with the valid line, and leaves the rest of the input
    unread.  Its buffer takes every valid line of fewer than
    [MAX_EMAIL_LENGTH] characters. *)
Theorem main_accepts_first_valid_line (bad : list (list ascii))
  (v rest : list ascii) :
  Forall refused bad ->
  is_valid_email (Some v) = Some true ->
  strlen v < MAX_EMAIL_LENGTH ->
  main {| stdin := typed_lines bad ++ v ++ newline :: rest; stdout := [] |}
  = Returned 0
      {| stdin := rest;
         stdout := banner ++ List.concat (map reply bad) ++ prompt
                   ++ [accepted_line v; success v] |}.
Proof.
  intros Hbad Hv Hmax. unfold main, printf, print. cbn [stdin stdout app].
  rewrite session; trivial; [|reflexivity].
  cbn [capacity stdin stdout]. unfold banner, success.
  rewrite <- !app_assoc. reflexivity.
Qed.

Lemma main_accepts_first_valid_line_witness :
  main {| stdin := typed_lines [list_ascii_of_string "nobody"; []]
                   ++ list_ascii_of_string "user@example.com"
                   ++ newline :: list_ascii_of_string "more";
          stdout := [] |}
  = Returned 0
      {| stdin := list_ascii_of_string "more";
         stdout := banner
                   ++ List.concat (map reply [list_ascii_of_string "nobody"; []])
                   ++ prompt
                   ++ [accepted_line (list_ascii_of_string "user@example.com");
                       success (list_ascii_of_string "user@example.com")] |}.
Proof.
  apply (main_accepts_first_valid_line
           [list_ascii_of_string "nobody"; []]
           (list_ascii_of_string "user@example.com")
           (list_ascii_of_string "more")).
  - repeat constructor; simpl; intuition discriminate.
  - reflexivity.
  - vm_compute. reflexivity.
Defined.
